(** * Robin-hood-button: the dashboard's panels, shallowly embedded

    The repository is one React module, [src/App.tsx], over the types of
    [src/types.ts].  Each component is embedded as a record of its state
    variables together with one function per event handler; an [async]
    handler is split at its [await]s into the synchronous prefix and the
    continuation that runs when the awaited promise settles.  The two
    built-ins the handlers rely on, [JSON.stringify] and [JSON.parse], are
    embedded from ECMA-262 (sec. 25.5) over strings of UTF-16 code units.

    Standing assumptions, all about the environment and none about the
    code: a state update is rendered before the next event is handled, so a
    handler reads the current state; [localStorage] is a map without a
    quota; the API key is configured, so that the client of the generative
    service is constructed; the service is a black box whose calls are
    fulfilled or rejected by events of their own. *)

From stdpp Require Import base list gmap strings.
From Stdlib Require Import NArith ZArith Ascii String.

Set Default Proof Using "Type".
Local Open Scope N_scope.

(** ** JavaScript strings and the JSON built-ins *)

Module JS.

(** A String value is a finite sequence of 16-bit code units; a code unit is
    kept as an [N].  No definition below depends on the bound [65536]. *)
Abbreviation jsstring := (list N) (only parsing).

(** An ASCII literal of the source as a String value. *)
Definition js (s : string) : jsstring := N_of_ascii <$> list_ascii_of_string s.

(** [ToBoolean] on a String: only the empty String is falsy. *)
Definition truthy (s : jsstring) : bool :=
  match s with [] => false | _ :: _ => true end.

(** The code units the JSON grammar names. *)
Definition QUOTE : N := 34.       (* the double quote *)
Definition BACKSLASH : N := 92.
Definition SLASH : N := 47.
Definition LBRACE : N := 123.
Definition RBRACE : N := 125.
Definition LBRACKET : N := 91.
Definition RBRACKET : N := 93.
Definition COMMA : N := 44.
Definition COLON : N := 58.

Definition is_leading_surrogate (c : N) : bool := (55296 <=? c) && (c <=? 56319).
Definition is_trailing_surrogate (c : N) : bool := (56320 <=? c) && (c <=? 57343).

(** One lower-case hexadecimal digit, as [UnicodeEscape] prints it. *)
Definition hex_digit (d : N) : N := if d <? 10 then 48 + d else 87 + d.

(** [UnicodeEscape(C)]: backslash, [u], four hexadecimal digits. *)
Definition UnicodeEscape (c : N) : jsstring :=
  [BACKSLASH; 117; hex_digit (c / 4096 mod 16); hex_digit (c / 256 mod 16);
   hex_digit (c / 16 mod 16); hex_digit (c mod 16)].

(** The body of [QuoteJSONString]: the code points of the String are
    visited in order; a surrogate pair is one code point and is copied, a
    lone surrogate and a control character are escaped. *)
Fixpoint quote_chars (s : jsstring) : jsstring :=
  match s with
  | [] => []
  | c :: r =>
      if c =? 8 then BACKSLASH :: 98 :: quote_chars r
      else if c =? 9 then BACKSLASH :: 116 :: quote_chars r
      else if c =? 10 then BACKSLASH :: 110 :: quote_chars r
      else if c =? 12 then BACKSLASH :: 102 :: quote_chars r
      else if c =? 13 then BACKSLASH :: 114 :: quote_chars r
      else if c =? QUOTE then BACKSLASH :: QUOTE :: quote_chars r
      else if c =? BACKSLASH then BACKSLASH :: BACKSLASH :: quote_chars r
      else if c <? 32 then UnicodeEscape c ++ quote_chars r
      else if is_leading_surrogate c then
        match r with
        | d :: r' =>
            if is_trailing_surrogate d then c :: d :: quote_chars r'
            else UnicodeEscape c ++ quote_chars r
        | [] => UnicodeEscape c ++ quote_chars r
        end
      else if is_trailing_surrogate c then UnicodeEscape c ++ quote_chars r
      else c :: quote_chars r
  end.

Definition QuoteJSONString (s : jsstring) : jsstring :=
  QUOTE :: quote_chars s ++ [QUOTE].

(** The values [JSON.parse] builds.  A Number is kept as its literal (the
    Number value is the double nearest to it; nothing here reads it) and an
    Object as its members in the order of the text. *)
#[warnings="-register-all"]
Inductive json : Type :=
  | JNull
  | JBool (b : bool)
  | JNum (literal : jsstring)
  | JStr (s : jsstring)
  | JArr (elements : list json)
  | JObj (members : list (jsstring * json)).

(** What a parser returns: a value and the unread input, a [SyntaxError],
    or the recursion bound reached. *)
Inductive parsed (A : Type) : Type :=
  | Ok (a : A) (rest : jsstring)
  | SyntaxError
  | OutOfFuel.
Arguments Ok {A} a rest.
Arguments SyntaxError {A}.
Arguments OutOfFuel {A}.

Definition bind {A B} (p : parsed A) (k : A -> jsstring -> parsed B) : parsed B :=
  match p with
  | Ok a rest => k a rest
  | SyntaxError => SyntaxError
  | OutOfFuel => OutOfFuel
  end.

Notation "'let*' x , r := p 'in' k" := (bind p (fun x r => k))
  (at level 10, x name, r name, p at level 200, k at level 200).

Definition is_ws (c : N) : bool :=
  (c =? 9) || (c =? 10) || (c =? 13) || (c =? 32).

Fixpoint skip_ws (s : jsstring) : jsstring :=
  match s with
  | c :: r => if is_ws c then skip_ws r else s
  | [] => []
  end.

Definition is_digit (c : N) : bool := (48 <=? c) && (c <=? 57).

Definition hex_value (c : N) : option N :=
  if is_digit c then Some (c - 48)
  else if (97 <=? c) && (c <=? 102) then Some (c - 87)
  else if (65 <=? c) && (c <=? 70) then Some (c - 55)
  else None.

(** The characters of a JSON string after its opening quote, up to and
    including the closing quote. *)
Fixpoint parse_chars (s : jsstring) : parsed jsstring :=
  match s with
  | [] => SyntaxError
  | c :: r =>
      if c =? QUOTE then Ok [] r
      else if c =? BACKSLASH then
        match r with
        | [] => SyntaxError
        | e :: r1 =>
            if e =? 117 then
              match r1 with
              | h3 :: h2 :: h1 :: h0 :: r2 =>
                  match hex_value h3, hex_value h2, hex_value h1, hex_value h0 with
                  | Some a, Some b, Some c', Some d =>
                      let* cs, rest := parse_chars r2 in
                      Ok ((a * 4096 + b * 256 + c' * 16 + d) :: cs) rest
                  | _, _, _, _ => SyntaxError
                  end
              | _ => SyntaxError
              end
            else
              let unescaped :=
                if e =? QUOTE then Some QUOTE
                else if e =? BACKSLASH then Some BACKSLASH
                else if e =? SLASH then Some SLASH
                else if e =? 98 then Some 8
                else if e =? 102 then Some 12
                else if e =? 110 then Some 10
                else if e =? 114 then Some 13
                else if e =? 116 then Some 9
                else None in
              match unescaped with
              | Some u => let* cs, rest := parse_chars r1 in Ok (u :: cs) rest
              | None => SyntaxError
              end
        end
      else if c <? 32 then SyntaxError
      else let* cs, rest := parse_chars r in Ok (c :: cs) rest
  end.

(** The longest prefix of digits. *)
Fixpoint span_digits (s : jsstring) : jsstring * jsstring :=
  match s with
  | c :: r =>
      if is_digit c then let '(ds, rest) := span_digits r in (c :: ds, rest)
      else ([], s)
  | [] => ([], [])
  end.

(** A JSON number: [-? int frac? exp?], one definition per part. *)
Definition opt_char (p : N -> bool) (s : jsstring) : jsstring * jsstring :=
  match s with
  | c :: r => if p c then ([c], r) else ([], s)
  | [] => ([], s)
  end.

Definition digits1 (s : jsstring) : parsed jsstring :=
  match span_digits s with
  | ([], _) => SyntaxError
  | (ds, rest) => Ok ds rest
  end.

Definition int_part (s : jsstring) : parsed jsstring :=
  match s with
  | c :: r =>
      if c =? 48 then Ok [c] r
      else if is_digit c then let '(ds, rest) := span_digits r in Ok (c :: ds) rest
      else SyntaxError
  | [] => SyntaxError
  end.

Definition frac_part (s : jsstring) : parsed jsstring :=
  match s with
  | c :: r =>
      if c =? 46 then let* ds, rest := digits1 r in Ok (c :: ds) rest
      else Ok [] s
  | [] => Ok [] s
  end.

Definition exp_part (s : jsstring) : parsed jsstring :=
  match s with
  | c :: r =>
      if (c =? 101) || (c =? 69) then
        let '(esign, r1) := opt_char (fun d => (d =? 43) || (d =? 45)) r in
        let* ds, rest := digits1 r1 in Ok (c :: esign ++ ds) rest
      else Ok [] s
  | [] => Ok [] s
  end.

Definition parse_number (s : jsstring) : parsed jsstring :=
  let '(sign, s1) := opt_char (N.eqb 45) s in
  let* int, s2 := int_part s1 in
  let* frac, s3 := frac_part s2 in
  let* exp, s4 := exp_part s3 in
  Ok (sign ++ int ++ frac ++ exp) s4.

(** A fixed word ([true], [false], [null]) at the head of the input. *)
Fixpoint expect (word s : jsstring) : option jsstring :=
  match word with
  | [] => Some s
  | w :: word' =>
      match s with
      | c :: r => if c =? w then expect word' r else None
      | [] => None
      end
  end.

Definition parse_literal (word : string) (v : json) (s : jsstring) : parsed json :=
  match expect (js word) s with
  | Some rest => Ok v rest
  | None => SyntaxError
  end.

(** The recursive descent over values, one definition per nonterminal,
    each over the parsers of the nonterminals it calls.  [value_at] reads
    one value after optional white space; [elements_at] reads the elements
    of an array after its bracket up to and including the closing bracket;
    [members_at] does the same for an object. *)
Definition value_at (elements : jsstring -> parsed (list json))
    (members : jsstring -> parsed (list (jsstring * json)))
    (s : jsstring) : parsed json :=
  match skip_ws s with
  | [] => SyntaxError
  | c :: r =>
      if c =? LBRACE then
        match skip_ws r with
        | [] => SyntaxError
        | c' :: r' =>
            if c' =? RBRACE then Ok (JObj []) r'
            else let* ms, rest := members (c' :: r') in Ok (JObj ms) rest
        end
      else if c =? LBRACKET then
        match skip_ws r with
        | [] => SyntaxError
        | c' :: r' =>
            if c' =? RBRACKET then Ok (JArr []) r'
            else let* vs, rest := elements (c' :: r') in Ok (JArr vs) rest
        end
      else if c =? QUOTE then let* str, rest := parse_chars r in Ok (JStr str) rest
      else if c =? 116 then parse_literal "true" (JBool true) (c :: r)
      else if c =? 102 then parse_literal "false" (JBool false) (c :: r)
      else if c =? 110 then parse_literal "null" JNull (c :: r)
      else let* lit, rest := parse_number (c :: r) in Ok (JNum lit) rest
  end.

Definition elements_at (value : jsstring -> parsed json)
    (elements : jsstring -> parsed (list json))
    (s : jsstring) : parsed (list json) :=
  let* v, r := value s in
  match skip_ws r with
  | [] => SyntaxError
  | c :: r' =>
      if c =? COMMA then let* vs, rest := elements r' in Ok (v :: vs) rest
      else if c =? RBRACKET then Ok [v] r'
      else SyntaxError
  end.

Definition members_at (value : jsstring -> parsed json)
    (members : jsstring -> parsed (list (jsstring * json)))
    (s : jsstring) : parsed (list (jsstring * json)) :=
  match skip_ws s with
  | [] => SyntaxError
  | q :: r0 =>
      if q =? QUOTE then
        let* name, r1 := parse_chars r0 in
        match skip_ws r1 with
        | [] => SyntaxError
        | c1 :: r2 =>
            if c1 =? COLON then
              let* v, r3 := value r2 in
              match skip_ws r3 with
              | [] => SyntaxError
              | c :: r' =>
                  if c =? COMMA then
                    let* ms, rest := members r' in Ok ((name, v) :: ms) rest
                  else if c =? RBRACE then Ok [(name, v)] r'
                  else SyntaxError
              end
            else SyntaxError
        end
      else SyntaxError
  end.

(** The knot, tied by a bound on the depth of calls. *)
Fixpoint parse_value (fuel : nat) (s : jsstring) : parsed json :=
  match fuel with
  | O => OutOfFuel
  | S fuel' => value_at (parse_elements fuel') (parse_members fuel') s
  end
with parse_elements (fuel : nat) (s : jsstring) : parsed (list json) :=
  match fuel with
  | O => OutOfFuel
  | S fuel' => elements_at (parse_value fuel') (parse_elements fuel') s
  end
with parse_members (fuel : nat) (s : jsstring) : parsed (list (jsstring * json)) :=
  match fuel with
  | O => OutOfFuel
  | S fuel' => members_at (parse_value fuel') (parse_members fuel') s
  end.

(** Why [JSON.parse] did not return. *)
Inductive parse_error : Type := Syntax | Fuel.

(** [JSON.parse(text)]: one value, white space around it, nothing else. *)
Definition JSON_parse (text : jsstring) : json + parse_error :=
  match parse_value (2 * List.length text + 1) text with
  | Ok v rest => match skip_ws rest with [] => inl v | _ :: _ => inr Syntax end
  | SyntaxError => inr Syntax
  | OutOfFuel => inr Fuel
  end.

(** [O[P]] for a value of [JSON.parse]: a later member of the text
    overrides an earlier one with the same name; [None] is [undefined]. *)
Fixpoint get_member (name : jsstring) (members : list (jsstring * json)) : option json :=
  match members with
  | [] => None
  | (k, v) :: rest =>
      match get_member name rest with
      | Some v' => Some v'
      | None => if decide (k = name) then Some v else None
      end
  end.

(** Three readings of a parser's result, used to show that the bound of
    [JSON_parse] is never reached. *)

(** An [Ok] result leaves fewer than [n] code units unread. *)
Definition shorter {A} (n : nat) (p : parsed A) : Prop :=
  match p with Ok _ r => (List.length r < n)%nat | _ => True end.

(** The recursion bound was not reached. *)
Definition in_bound {A} (p : parsed A) : Prop :=
  match p with OutOfFuel => False | _ => True end.

(** An [Ok] result leaves at most [n] code units unread. *)
Definition no_longer {A} (n : nat) (p : parsed A) : Prop :=
  match p with Ok _ r => (List.length r <= n)%nat | _ => True end.

(** [Array.prototype.filter] with a callback that reads the element and its
    index; indices count from 0. *)
Fixpoint filter_from {A} (f : A -> Z -> bool) (i : Z) (l : list A) : list A :=
  match l with
  | [] => []
  | x :: r => if f x i then x :: filter_from f (i + 1)%Z r else filter_from f (i + 1)%Z r
  end.

Definition Array_filter {A} (f : A -> Z -> bool) (l : list A) : list A :=
  filter_from f 0%Z l.

(** A template literal's substitution of a value that may be [undefined]. *)
Definition template (v : option jsstring) : jsstring :=
  match v with Some s => s | None => js "undefined" end.

End JS.

Import JS.

(** ** [src/types.ts] *)

Module Types.

Inductive FeatureId : Type :=
  | dashboard | socialStrategist | podFactory | affiliateStudio | chatbot
  | imageGenerator | videoGenerator | researcher | liveAssistant
  | speechGenerator | vault.

Inductive Role : Type := user | model.

Record ChatMessage : Type := { role : Role; text : jsstring }.

Inductive KeyCategory : Type := payment | social | ecommerce | other.

Record ApiKeyStore : Type :=
  { provider : jsstring; key : jsstring; category : KeyCategory }.

End Types.

(** ** [VaultView]: the credential vault *)

Module VaultView.
Import Types.

(** The key of the one [localStorage] slot the vault owns. *)
Definition storage_key : string := "wealth_vault_keys".

(** The component's state variables, and the browser's [localStorage]. *)
Record State : Type :=
  { keys : list ApiKeyStore;
    newProvider : jsstring;
    newKey : jsstring;
    category : KeyCategory;
    localStorage : gmap string jsstring }.

Definition category_name (c : KeyCategory) : jsstring :=
  match c with
  | payment => js "payment"
  | social => js "social"
  | ecommerce => js "ecommerce"
  | other => js "other"
  end.

(** [JSON.stringify] at the type [ApiKeyStore[]]: [SerializeJSONArray] over
    [SerializeJSONObject], the properties in their order of creation in
    [addKey] ([provider], [key], [category]), no white space. *)
Definition SerializeJSONObject (k : ApiKeyStore) : jsstring :=
  [LBRACE] ++ QuoteJSONString (js "provider") ++ [COLON] ++ QuoteJSONString (provider k)
  ++ [COMMA] ++ QuoteJSONString (js "key") ++ [COLON] ++ QuoteJSONString (key k)
  ++ [COMMA] ++ QuoteJSONString (js "category") ++ [COLON]
  ++ QuoteJSONString (category_name (Types.category k)) ++ [RBRACE].

Fixpoint join_comma (parts : list jsstring) : jsstring :=
  match parts with
  | [] => []
  | [p] => p
  | p :: rest => p ++ COMMA :: join_comma rest
  end.

Definition JSON_stringify (ks : list ApiKeyStore) : jsstring :=
  [LBRACKET] ++ join_comma (SerializeJSONObject <$> ks) ++ [RBRACKET].

(** The value [JSON.parse] builds from the text of an [ApiKeyStore], and the
    reading of a parsed value as a record built by [addKey]: an object with
    exactly the properties [provider], [key] and [category], in that order,
    each a String, the last one the name of a category. *)
Definition to_json (k : ApiKeyStore) : json :=
  JObj [(js "provider", JStr (provider k)); (js "key", JStr (key k));
        (js "category", JStr (category_name (Types.category k)))].

Definition category_of_name (s : jsstring) : option KeyCategory :=
  if decide (s = js "payment") then Some payment
  else if decide (s = js "social") then Some social
  else if decide (s = js "ecommerce") then Some ecommerce
  else if decide (s = js "other") then Some other
  else None.

Definition as_ApiKeyStore (j : json) : option ApiKeyStore :=
  match j with
  | JObj [(n1, JStr p); (n2, JStr k); (n3, JStr c)] =>
      if decide (n1 = js "provider") then
        if decide (n2 = js "key") then
          if decide (n3 = js "category") then
            match category_of_name c with
            | Some cat => Some {| provider := p; key := k; Types.category := cat |}
            | None => None
            end
          else None
        else None
      else None
  | _ => None
  end.

Definition as_keys (j : json) : option (list ApiKeyStore) :=
  match j with
  | JArr xs => mapM as_ApiKeyStore xs
  | _ => None
  end.

Definition setKeys (ks : list ApiKeyStore) (st : State) : State :=
  {| keys := ks; newProvider := newProvider st; newKey := newKey st;
     category := category st; localStorage := localStorage st |}.

(** What mounting the panel leads to: a mounted panel; the effect's
    [JSON.parse] throwing, with no handler around it; or [setKeys] given a
    parsed value that is not a sequence of records as [addKey] builds them
    (it need not be an array), which the panel then renders and serialises
    as it is and this embedding does not follow. *)
Inductive Mount : Type :=
  | Mounted (st : State)
  | Threw (e : parse_error)
  | Foreign (j : json).

(** The initial state and the mount effect (lines 70-78). *)
Definition initial (ls : gmap string jsstring) : State :=
  {| keys := []; newProvider := []; newKey := []; category := payment;
     localStorage := ls |}.

Definition mount (ls : gmap string jsstring) : Mount :=
  match ls !! storage_key with
  | None => Mounted (initial ls)
  | Some saved =>
      if truthy saved then
        match JSON_parse saved with
        | inl j =>
            match as_keys j with
            | Some ks => Mounted (setKeys ks (initial ls))
            | None => Foreign j
            end
        | inr e => Threw e
        end
      else Mounted (initial ls)
  end.

(** [saveKeys] (lines 80-83). *)
Definition saveKeys (newKeys : list ApiKeyStore) (st : State) : State :=
  {| keys := newKeys; newProvider := newProvider st; newKey := newKey st;
     category := category st;
     localStorage := <[storage_key := JSON_stringify newKeys]> (localStorage st) |}.

(** [addKey] (lines 85-90). *)
Definition addKey (st : State) : State :=
  if negb (truthy (newProvider st)) || negb (truthy (newKey st)) then st
  else
    let st' :=
      saveKeys (keys st ++ [{| provider := newProvider st; key := newKey st;
                               Types.category := category st |}]) st in
    {| keys := keys st'; newProvider := []; newKey := [];
       category := category st'; localStorage := localStorage st' |}.

(** [deleteKey] (lines 92-94). *)
Definition deleteKey (index : Z) (st : State) : State :=
  saveKeys (Array_filter (fun _ i => negb (i =? index)%Z) (keys st)) st.

(** The panel's events: typing in the form, the two buttons. *)
Inductive Event : Type :=
  | SetNewProvider (s : jsstring)
  | SetNewKey (s : jsstring)
  | SetCategory (c : KeyCategory)
  | ClickAdd
  | ClickDelete (index : Z).

Definition step (st : State) (ev : Event) : State :=
  match ev with
  | SetNewProvider s =>
      {| keys := keys st; newProvider := s; newKey := newKey st;
         category := category st; localStorage := localStorage st |}
  | SetNewKey s =>
      {| keys := keys st; newProvider := newProvider st; newKey := s;
         category := category st; localStorage := localStorage st |}
  | SetCategory c =>
      {| keys := keys st; newProvider := newProvider st; newKey := newKey st;
         category := c; localStorage := localStorage st |}
  | ClickAdd => addKey st
  | ClickDelete index => deleteKey index st
  end.

Definition run (evs : list Event) (st : State) : State := foldl step st evs.

(** The Secret Store's two operations: [add(record)] fills the form and
    presses the button, [delete(position)] presses a row's button. *)
Inductive Op : Type :=
  | Add (r : ApiKeyStore)
  | Delete (position : Z).

Definition events_of (op : Op) : list Event :=
  match op with
  | Add r => [SetNewProvider (provider r); SetNewKey (key r);
              SetCategory (Types.category r); ClickAdd]
  | Delete position => [ClickDelete position]
  end.

Definition apply (st : State) (op : Op) : State := run (events_of op) st.

Definition apply_all (ops : list Op) (st : State) : State := foldl apply st ops.

(** The persisted value, as [localStorage.getItem] returns it. *)
Definition persisted (st : State) : option jsstring := localStorage st !! storage_key.

(** The simulated remount: a fresh panel over the same [localStorage]. *)
Definition reload (st : State) : Mount := mount (localStorage st).

(** An [add] the guard of [addKey] turns down. *)
Definition rejected (op : Op) : bool :=
  match op with
  | Add r => negb (truthy (provider r)) || negb (truthy (key r))
  | Delete _ => false
  end.

(** What every event preserves: nothing is persisted yet and the sequence is
    empty, or the persisted value is the sequence serialised. *)
Definition in_sync (st : State) : Prop :=
  (persisted st = None /\ keys st = []) \/ persisted st = Some (JSON_stringify (keys st)).

(** The persisted value is the sequence in memory, serialised. *)
Definition synced (st : State) : Prop :=
  persisted st = Some (JSON_stringify (keys st)).

(** The records of the spec's scenarios. *)
Definition stripe : ApiKeyStore :=
  {| provider := js "Stripe"; key := js "sk_123"; Types.category := payment |}.
Definition gumroad : ApiKeyStore :=
  {| provider := js "Gumroad"; key := js "gm_456"; Types.category := ecommerce |}.
Definition twitter : ApiKeyStore :=
  {| provider := js "X"; key := js "x_789"; Types.category := social |}.
Definition no_provider : ApiKeyStore :=
  {| provider := []; key := js "secret"; Types.category := payment |}.
Definition no_secret : ApiKeyStore :=
  {| provider := js "provider"; key := []; Types.category := payment |}.

End VaultView.

(** ** The generative service, as the panels see it *)

Module GenAI.

(** The fields of a [GenerateContentResponse] the panels read; each can be
    absent ([undefined]). *)
Record Blob : Type := { mimeType : option jsstring; data : option jsstring }.
Record Part : Type := { inlineData : option Blob }.
Record Content : Type := { parts : option (list Part) }.
Record Candidate : Type := { content : option Content }.
Record GenerateContentResponse : Type :=
  { text : option jsstring; candidates : option (list Candidate) }.

(** The [config] of a request. *)
Inductive Config : Type :=
  | responseMimeType (mime : jsstring)
  | imageConfig_aspectRatio (ratio : jsstring).

(** The argument of [ai.models.generateContent]. *)
Record GenerateContentParameters : Type :=
  { model : jsstring; contents : jsstring; config : Config }.

(** How an awaited call settles. *)
Inductive Settled (A : Type) : Type :=
  | Fulfilled (a : A)
  | Rejected.
Arguments Fulfilled {A} a.
Arguments Rejected {A}.

(** What a [catch] block receives and logs. *)
Inductive Thrown : Type :=
  | ServiceError
  | JSONError (e : parse_error)
  | TypeError.

End GenAI.

(** ** [PodFactoryView]: the product-listing panel *)

Module PodFactoryView.
Import GenAI.

(** The panel's [results]: the data URI and the two properties read off the
    parsed strategy ([None] is [undefined]). *)
Record Results : Type :=
  { image : jsstring; title : option json; desc : option json }.

(** Where [generateProduct] is suspended: nowhere, at its first [await]
    (holding the [prompt] of its closure), or at its second (holding the
    prompt and the parsed strategy). *)
Inductive Awaiting : Type :=
  | Nothing
  | Strategy (prompt : jsstring)
  | Image (prompt : jsstring) (strategy : json).

(** The state variables, the suspended call, the requests issued so far and
    what [console.error] has logged. *)
Record State : Type :=
  { prompt : jsstring;
    isLoading : bool;
    results : option Results;
    awaiting : Awaiting;
    requests : list GenerateContentParameters;
    console : list Thrown }.

Definition initial : State :=
  {| prompt := []; isLoading := false; results := None; awaiting := Nothing;
     requests := []; console := [] |}.

(** The two requests (lines 218-222 and 225-229). *)
Definition strategy_request (prompt : jsstring) : GenerateContentParameters :=
  {| model := js "gemini-3-flash-preview";
     contents :=
       js "Create a high-converting Print-on-Demand product listing for: "
       ++ [QUOTE] ++ prompt ++ [QUOTE]
       ++ js ". Return a JSON object with keys: "
       ++ [QUOTE] ++ js "title" ++ [QUOTE] ++ js ", "
       ++ [QUOTE] ++ js "description" ++ [QUOTE] ++ js ".";
     config := responseMimeType (js "application/json") |}.

Definition image_request (prompt : jsstring) : GenerateContentParameters :=
  {| model := js "gemini-2.5-flash-image";
     contents :=
       js "Vectorized design for a high-end apparel product, white background, high-resolution minimalist aesthetic: "
       ++ prompt;
     config := imageConfig_aspectRatio (js "1:1") |}.

(** [imgResponse.candidates[0].content.parts]; [None] is the [TypeError] of
    reading a property of [undefined]. *)
Definition first_parts (r : GenerateContentResponse) : option (list Part) :=
  match candidates r with
  | Some (c :: _) =>
      match content c with
      | Some ct => parts ct
      | None => None
      end
  | _ => None
  end.

Definition data_uri (b : Blob) : jsstring :=
  js "data:" ++ template (mimeType b) ++ js ";base64," ++ template (data b).

(** The loop of lines 231-234: [b64] starts empty and every part with
    inline data assigns it. *)
Definition inline_image (ps : list Part) : jsstring :=
  foldl (fun b64 part =>
           match inlineData part with
           | Some b => data_uri b
           | None => b64
           end) [] ps.

(** [strategy.title]: a [TypeError] ([None]) on [null], the member of an
    object, [undefined] on any other value. *)
Definition get_property (j : json) (name : jsstring) : option (option json) :=
  match j with
  | JNull => None
  | JObj ms => Some (get_member name ms)
  | _ => Some None
  end.

(** The [catch] and [finally] blocks (lines 236-237). *)
Definition failed (e : Thrown) (st : State) : State :=
  {| prompt := prompt st; isLoading := false; results := results st;
     awaiting := Nothing; requests := requests st;
     console := console st ++ [e] |}.

(** [generateProduct] up to its first [await] (lines 212-222). *)
Definition generateProduct (st : State) : State :=
  if negb (truthy (prompt st)) || isLoading st then st
  else
    {| prompt := prompt st; isLoading := true; results := None;
       awaiting := Strategy (prompt st);
       requests := requests st ++ [strategy_request (prompt st)];
       console := console st |}.

(** Line 223 on the settled first call: the parsed strategy, or what is
    thrown. *)
Definition read_strategy (o : Settled GenerateContentResponse) : Thrown + json :=
  match o with
  | Rejected => inl ServiceError
  | Fulfilled strategyResponse =>
      match JSON_parse (template (text strategyResponse)) with
      | inl strategy => inr strategy
      | inr e => inl (JSONError e)
      end
  end.

(** Lines 231-235 on the settled second call: the listing, or what is
    thrown. *)
Definition read_listing (strategy : json) (o : Settled GenerateContentResponse)
    : Thrown + Results :=
  match o with
  | Rejected => inl ServiceError
  | Fulfilled imgResponse =>
      match first_parts imgResponse with
      | None => inl TypeError
      | Some ps =>
          let b64 := inline_image ps in
          match get_property strategy (js "title"),
                get_property strategy (js "description") with
          | Some t, Some d => inr {| image := b64; title := t; desc := d |}
          | _, _ => inl TypeError
          end
      end
  end.

(** The rest of [generateProduct], run when the awaited call settles
    (lines 223-237). *)
Definition settle (o : Settled GenerateContentResponse) (st : State) : State :=
  match awaiting st with
  | Nothing => st
  | Strategy p =>
      match read_strategy o with
      | inl e => failed e st
      | inr strategy =>
          {| prompt := prompt st; isLoading := isLoading st;
             results := results st; awaiting := Image p strategy;
             requests := requests st ++ [image_request p];
             console := console st |}
      end
  | Image p strategy =>
      match read_listing strategy o with
      | inl e => failed e st
      | inr r =>
          {| prompt := prompt st; isLoading := false; results := Some r;
             awaiting := Nothing; requests := requests st;
             console := console st |}
      end
  end.

Definition setPrompt (s : jsstring) (st : State) : State :=
  {| prompt := s; isLoading := isLoading st; results := results st;
     awaiting := awaiting st; requests := requests st; console := console st |}.

(** The panel's events: typing, the button, an awaited call settling. *)
Inductive Event : Type :=
  | Type_ (s : jsstring)
  | Click
  | Settle (o : Settled GenerateContentResponse).

Definition step (st : State) (ev : Event) : State :=
  match ev with
  | Type_ s => setPrompt s st
  | Click => generateProduct st
  | Settle o => settle o st
  end.

Definition run (evs : list Event) (st : State) : State := foldl step st evs.


(** What the panel shows: the spinner while loading, else the result if
    there is one, else the placeholder (lines 261-287). *)
Inductive Display : Type :=
  | Spinner
  | Listing (r : Results)
  | Placeholder.

Definition render (st : State) : Display :=
  if isLoading st then Spinner
  else match results st with
       | Some r => Listing r
       | None => Placeholder
       end.

(** A submission the guard of [generateProduct] lets through. *)
Definition accepted (st : State) : Prop :=
  truthy (prompt st) = true /\ isLoading st = false.


(** Sample responses: a strategy text, an image with two inline parts, an
    image with none. *)
Definition strategy_text : jsstring :=
  [LBRACE] ++ QuoteJSONString (js "title") ++ [COLON] ++ QuoteJSONString (js "Fox Tee")
  ++ [COMMA] ++ QuoteJSONString (js "description") ++ [COLON]
  ++ QuoteJSONString (js "A minimalist fox.") ++ [RBRACE].

Definition strategy_response : GenerateContentResponse :=
  {| text := Some strategy_text; candidates := None |}.

Definition image_parts (ps : list Part) : GenerateContentResponse :=
  {| text := None; candidates := Some [{| content := Some {| parts := Some ps |} |}] |}.

Definition text_part : Part := {| inlineData := None |}.
Definition png_part : Part :=
  {| inlineData := Some {| mimeType := Some (js "image/png"); data := Some (js "AAAA") |} |}.





(** A panel showing a listing: the prompt typed, the button clicked, both
    calls fulfilled. *)
Definition listed : State :=
  run [Type_ (js "fox"); Click; Settle (Fulfilled strategy_response);
       Settle (Fulfilled (image_parts [text_part; png_part]))] initial.

End PodFactoryView.

(** ** [ChatbotView]: the chat panel *)

Module ChatbotView.
Import Types GenAI.

(** The state variables, whether a [sendMessage] is awaited, the messages
    passed to [sendMessage] so far, and the log. *)
Record State : Type :=
  { messages : list ChatMessage;
    prompt : jsstring;
    isLoading : bool;
    awaiting : bool;
    sent : list jsstring;
    console : list Thrown }.

Definition initial : State :=
  {| messages := []; prompt := []; isLoading := false; awaiting := false;
     sent := []; console := [] |}.

(** [msgOverride || prompt]. *)
Definition or_prompt (msgOverride : option jsstring) (prompt : jsstring) : jsstring :=
  match msgOverride with
  | Some m => if truthy m then m else prompt
  | None => prompt
  end.

Definition falsy (v : option jsstring) : bool :=
  match v with Some m => negb (truthy m) | None => true end.

(** [handleSend] up to its [await] (lines 311-318). *)
Definition handleSend (msgOverride : option jsstring) (st : State) : State :=
  let msg := or_prompt msgOverride (prompt st) in
  if negb (truthy msg) || isLoading st then st
  else
    {| messages := messages st ++ [{| role := user; Types.text := msg |}];
       prompt := if falsy msgOverride then [] else prompt st;
       isLoading := true; awaiting := true;
       sent := sent st ++ [msg]; console := console st |}.

(** The rest of [handleSend], run when [sendMessage] settles (lines
    319-321); the reply carries [result.text]. *)
Definition settle (o : Settled jsstring) (st : State) : State :=
  if awaiting st then
    match o with
    | Fulfilled reply =>
        {| messages := messages st ++ [{| role := Types.model; Types.text := reply |}];
           prompt := prompt st; isLoading := false; awaiting := false;
           sent := sent st; console := console st |}
    | Rejected =>
        {| messages := messages st; prompt := prompt st; isLoading := false;
           awaiting := false; sent := sent st;
           console := console st ++ [ServiceError] |}
    end
  else st.

(** The mount effect (lines 300-309): the chat session is created, and a
    truthy [initialPrompt] is sent. *)
Definition mount (initialPrompt : option jsstring) : State :=
  match initialPrompt with
  | Some p => if truthy p then handleSend (Some p) initial else initial
  | None => initial
  end.

Definition setPrompt (s : jsstring) (st : State) : State :=
  {| messages := messages st; prompt := s; isLoading := isLoading st;
     awaiting := awaiting st; sent := sent st; console := console st |}.

End ChatbotView.

(** ** [App]: the shell *)

Module App.
Import Types.

Record State : Type :=
  { activeFeature : FeatureId;
    isMenuOpen : bool;
    chatbotInitialPrompt : option jsstring }.

Definition initial : State :=
  {| activeFeature := dashboard; isMenuOpen := false; chatbotInitialPrompt := None |}.

Definition robin_hood_prompt : jsstring :=
  js "Give me a one-sentence high-level wealth strategy I should execute right now based on current market trends.".

(** [triggerRobinHoodStrategy] (lines 371-374). *)
Definition triggerRobinHoodStrategy (st : State) : State :=
  {| activeFeature := chatbot; isMenuOpen := isMenuOpen st;
     chatbotInitialPrompt := Some robin_hood_prompt |}.

(** A sidebar button (line 408). *)
Definition selectFeature (f : FeatureId) (st : State) : State :=
  {| activeFeature := f; isMenuOpen := false; chatbotInitialPrompt := None |}.

(** The header's menu button (line 436). *)
Definition toggleMenu (st : State) : State :=
  {| activeFeature := activeFeature st; isMenuOpen := negb (isMenuOpen st);
     chatbotInitialPrompt := chatbotInitialPrompt st |}.

(** The panel [CurrentView] renders (lines 376-388). *)
Inductive View : Type :=
  | Dashboard
  | Vault
  | PodFactory
  | Chatbot (initialPrompt : option jsstring)
  | IntegrationPending.

Definition CurrentView (st : State) : View :=
  match activeFeature st with
  | dashboard => Dashboard
  | vault => Vault
  | podFactory => PodFactory
  | chatbot => Chatbot (chatbotInitialPrompt st)
  | _ => IntegrationPending
  end.

(** The shell's events; the ROBIN HOOD button exists on the dashboard only. *)
Inductive Action : Type :=
  | PressRobinHood
  | Select (f : FeatureId)
  | ToggleMenu.

Definition step (st : State) (a : Action) : State :=
  match a with
  | PressRobinHood =>
      match CurrentView st with
      | Dashboard => triggerRobinHoodStrategy st
      | _ => st
      end
  | Select f => selectFeature f st
  | ToggleMenu => toggleMenu st
  end.

Definition run (acts : list Action) (st : State) : State := foldl step st acts.

End App.

(** ** [components/Icons.tsx]: the icon registry *)

Module Icons.

(** What [Icon] returns: one of its [svg] elements, with the class name it
    was given and the [d] attributes of its paths (the other attributes are
    the same for every icon); a property the [icons] object inherits from
    [Object.prototype]; or [null]. *)
Inductive ReactNode : Type :=
  | svg (className : string) (paths : list string)
  | inherited (property : string)
  | null.

(** The default of the [className] prop (line 9). *)
Definition default_className : string := "w-6 h-6".

(** The own properties of the [icons] object (lines 10-103). *)
Definition icons : gmap string (list string) :=
  list_to_map [
    ("dashboard",
       ["M3.75 6v1.5c0 .414.336.75.75.75h1.5a.75.75 0 0 0 .75-.75V6a.75.75 0 0 0-.75-.75h-1.5a.75.75 0 0 0-.75.75ZM3.75 12v1.5c0 .414.336.75.75.75h1.5a.75.75 0 0 0 .75-.75V12a.75.75 0 0 0-.75-.75h-1.5a.75.75 0 0 0-.75.75ZM3.75 18v1.5c0 .414.336.75.75.75h1.5a.75.75 0 0 0 .75-.75V18a.75.75 0 0 0-.75-.75h-1.5a.75.75 0 0 0-.75.75ZM9.75 6v1.5c0 .414.336.75.75.75h1.5a.75.75 0 0 0 .75-.75V6a.75.75 0 0 0-.75-.75h-1.5a.75.75 0 0 0-.75.75ZM9.75 12v1.5c0 .414.336.75.75.75h1.5a.75.75 0 0 0 .75-.75V12a.75.75 0 0 0-.75-.75h-1.5a.75.75 0 0 0-.75.75ZM9.75 18v1.5c0 .414.336.75.75.75h1.5a.75.75 0 0 0 .75-.75V18a.75.75 0 0 0-.75-.75h-1.5a.75.75 0 0 0-.75.75ZM15.75 6v1.5c0 .414.336.75.75.75h1.5a.75.75 0 0 0 .75-.75V6a.75.75 0 0 0-.75-.75h-1.5a.75.75 0 0 0-.75.75ZM15.75 12v1.5c0 .414.336.75.75.75h1.5a.75.75 0 0 0 .75-.75V12a.75.75 0 0 0-.75-.75h-1.5a.75.75 0 0 0-.75.75ZM15.75 18v1.5c0 .414.336.75.75.75h1.5a.75.75 0 0 0 .75-.75V18a.75.75 0 0 0-.75-.75h-1.5a.75.75 0 0 0-.75.75Z"]);
    ("socialStrategist",
       ["M15.59 14.37a6 6 0 0 1-5.84 7.38v-4.8m5.84-2.58a14.98 14.98 0 0 0 6.16-12.12A14.98 14.98 0 0 0 9.63 8.41m5.96 5.96a14.962 14.962 0 0 1-5.96 5.96m0 0V22.5m-5.84-7.38a6 6 0 0 0 5.84 7.38V17.7m0-5.32A14.98 14.98 0 0 1 3.49 14.37M9.63 8.41a14.98 14.98 0 0 1 12.12-6.16 14.98 14.98 0 0 1-6.16 12.12"]);
    ("podFactory",
       ["M15.362 5.214A8.252 8.252 0 0 1 12 21 8.25 8.25 0 0 1 6.038 7.048 8.287 8.287 0 0 0 9 9.6a8.983 8.983 0 0 1 3.361-6.867 8.21 8.21 0 0 0 3 2.48Z";
        "M12 18a3.75 3.75 0 0 0 .495-7.467 5.99 5.99 0 0 0-1.925 3.546 5.974 5.974 0 0 1-2.133-1.001A3.75 3.75 0 0 0 12 18Z"]);
    ("affiliateStudio",
       ["M2.25 18.75a60.07 60.07 0 0 1 15.797 2.101c.727.198 1.453-.342 1.453-1.096V18.75M3.75 4.5v.75m0 0V6a2.25 2.25 0 0 1-2.25 2.25H1.5a2.25 2.25 0 0 1-2.25-2.25V5.25a2.25 2.25 0 0 1 2.25-2.25h.75a2.25 2.25 0 0 1 2.25 2.25ZM20.25 6h.75a2.25 2.25 0 0 1 2.25 2.25v.75A2.25 2.25 0 0 1 21 11.25h-.75a2.25 2.25 0 0 1-2.25-2.25V8.25A2.25 2.25 0 0 1 20.25 6ZM3.375 7.5h17.25c.621 0 1.125.504 1.125 1.125v1.5c0 .621-.504 1.125-1.125 1.125H3.375A1.125 1.125 0 0 1 2.25 10.125v-1.5c0-.621.504-1.125 1.125-1.125Z";
        "M8.25 14.25h7.5M8.25 17.25h3.75"]);
    ("vault",
       ["M16.5 10.5V6.75a4.5 4.5 0 1 0-9 0v3.75m-.75 11.25h10.5a2.25 2.25 0 0 0 2.25-2.25v-6.75a2.25 2.25 0 0 0-2.25-2.25H6.75a2.25 2.25 0 0 0-2.25 2.25v6.75a2.25 2.25 0 0 0 2.25 2.25Z"]);
    ("chatbot",
       ["M8.625 12a.375.375 0 1 1-.75 0 .375.375 0 0 1 .75 0Zm0 0H8.25m4.125 0a.375.375 0 1 1-.75 0 .375.375 0 0 1 .75 0Zm0 0H12m4.125 0a.375.375 0 1 1-.75 0 .375.375 0 0 1 .75 0Zm0 0h-.375M21 12c0 4.556-4.03 8.25-9 8.25a9.764 9.764 0 0 1-2.555-.337A5.972 5.972 0 0 1 5.41 20.97a5.969 5.969 0 0 1-.474-.065 4.48 4.48 0 0 0 .978-2.025c.09-.457-.133-.901-.467-1.226C3.93 16.178 3 14.189 3 12c0-4.556 4.03-8.25 9-8.25s9 3.694 9 8.25Z"]);
    ("imageGenerator",
       ["m2.25 15.75 5.159-5.159a2.25 2.25 0 0 1 3.182 0l5.159 5.159m-1.5-1.5 1.409-1.409a2.25 2.25 0 0 1 3.182 0l2.909 2.909m-18 3.75h16.5a1.5 1.5 0 0 0 1.5-1.5V6a1.5 1.5 0 0 0-1.5-1.5H3.75A1.5 1.5 0 0 0 2.25 6v12a1.5 1.5 0 0 0 1.5 1.5Zm10.5-11.25h.008v.008h-.008V8.25Zm.375 0a.375.375 0 1 1-.75 0 .375.375 0 0 1 .75 0Z"]);
    ("videoGenerator",
       ["m15.75 10.5 4.72-4.72a.75.75 0 0 1 1.28.53v11.38a.75.75 0 0 1-1.28.53l-4.72-4.72M4.5 18.75h9a2.25 2.25 0 0 0 2.25-2.25v-9A2.25 2.25 0 0 0 13.5 5.25h-9A2.25 2.25 0 0 0 2.25 7.5v9A2.25 2.25 0 0 0 4.5 18.75Z"]);
    ("researcher",
       ["M12 21a9.004 9.004 0 0 0 8.716-6.747M12 21a9.004 9.004 0 0 1-8.716-6.747M12 21c2.485 0 4.5-4.03 4.5-9S14.485 3 12 3m0 18c-2.485 0-4.5-4.03-4.5-9S9.515 3 12 3m0 0a8.997 8.997 0 0 1 7.843 4.582M12 3a8.997 8.997 0 0 0-7.843 4.582m15.686 0A11.953 11.953 0 0 1 12 10.5c-2.998 0-5.74-1.1-7.843-2.918m15.686 0A8.959 8.959 0 0 1 21 12c0 .778-.099 1.533-.284 2.253m0 0A11.953 11.953 0 0 0 12 13.5c-2.998 0-5.74-1.1-7.843-2.918"]);
    ("liveAssistant",
       ["M12 18.75a6 6 0 0 0 6-6v-1.5m-6 7.5a6 6 0 0 1-6-6v-1.5m12 0v-1.5a6 6 0 0 0-6-6v0a6 6 0 0 0-6 6v1.5m12 0v-1.5a6 6 0 0 0-6-6v0a6 6 0 0 0-6 6v1.5"]);
    ("speechGenerator",
       ["M19.114 5.636a9 9 0 0 1 0 12.728M16.463 8.288a5.25 5.25 0 0 1 0 7.424M6.75 8.25l4.72-4.72a.75.75 0 0 1 1.28.53v15.88a.75.75 0 0 1-1.28.53l-4.72-4.72H4.51c-.88 0-1.704-.507-1.938-1.354A9.01 9.01 0 0 1 2.25 12c0-.83.112-1.633.322-2.396C2.806 8.756 3.63 8.25 4.51 8.25H6.75Z"]);
    ("money",
       ["M12 6v12m-3-2.818.879.659c1.171.879 3.07.879 4.242 0 1.172-.879 1.172-2.303 0-3.182C13.536 12.219 12.768 12 12 12c-.725 0-1.45-.22-2.003-.659-1.106-.879-1.106-2.303 0-3.182s2.9-.879 4.006 0l.415.33M21 12a9 9 0 1 1-18 0 9 9 0 0 1 18 0Z"]);
    ("trash",
       ["m14.74 9-.346 9m-4.788 0L9.26 9m9.968-3.21c.342.052.682.107 1.022.166m-1.022-.165L18.16 19.673a2.25 2.25 0 0 1-2.244 2.077H8.084a2.25 2.25 0 0 1-2.244-2.077L4.772 5.79m14.456 0a48.108 48.108 0 0 0-3.478-.397m-12 .562c.34-.059.68-.114 1.022-.165m0 0a48.11 48.11 0 0 1 3.478-.397m7.5 0v-.916c0-1.18-.91-2.164-2.09-2.201a51.964 51.964 0 0 0-3.32 0c-1.18.037-2.09 1.022-2.09 2.201v.916m7.5 0a48.667 48.667 0 0 0-7.5 0"]);
    ("plus",
       ["M12 4.5v15m7.5-7.5h-15"]);
    ("stop",
       ["M5.25 7.5A2.25 2.25 0 0 1 7.5 5.25h9a2.25 2.25 0 0 1 2.25 2.25v9a2.25 2.25 0 0 1-2.25 2.25h-9a2.25 2.25 0 0 1-2.25-2.25v-9Z"]);
    ("play",
       ["M5.25 5.653c0-.856.917-1.398 1.667-.986l11.54 6.347a1.125 1.125 0 0 1 0 1.972l-11.54 6.347a1.125 1.125 0 0 1-1.667-.986V5.653Z"]);
    ("pause",
       ["M15.75 5.25v13.5m-6-13.5v13.5"]);
    ("upload",
       ["M3 16.5v2.25A2.25 2.25 0 0 0 5.25 21h13.5A2.25 2.25 0 0 0 21 18.75V16.5m-13.5-9L12 3m0 0 4.5 4.5M12 3v13.5"])
  ].

(** The properties every object literal inherits. *)
Definition Object_prototype : list string :=
  ["constructor"; "__defineGetter__"; "__defineSetter__"; "hasOwnProperty";
   "__lookupGetter__"; "__lookupSetter__"; "isPrototypeOf";
   "propertyIsEnumerable"; "toString"; "valueOf"; "__proto__"; "toLocaleString"].

(** [Icon] (lines 9-106): [icons[name] || null]; an element and an inherited
    function are truthy. *)
Definition Icon (name : string) (className : option string) : ReactNode :=
  let cls := match className with Some c => c | None => default_className end in
  match icons !! name with
  | Some paths => svg cls paths
  | None => if bool_decide (name ∈ Object_prototype) then inherited name else null
  end.

Definition is_svg (n : ReactNode) : bool :=
  match n with svg _ _ => true | _ => false end.

End Icons.

(** ** [FEATURES] and the feature a view is given *)

Module Features.
Import Types.

#[global] Instance FeatureId_eq_dec : EqDecision FeatureId.
Proof. solve_decision. Defined.

(** The [category] of a [Feature] ([types.ts] line 20). *)
Inductive Category : Type := Strategic | Creative | Operational | Control.

(** [Feature] ([types.ts] lines 15-21). *)
Record Feature : Type :=
  { id : FeatureId; name : string; description : string; icon : string;
    category : Category }.

(** [FEATURES] ([App.tsx] lines 10-21). *)
Definition FEATURES : list Feature :=
  [
    {| id := dashboard; name := "Wealth Overview";
       description := "Monitor your AI asset production and campaign health.";
       icon := "dashboard"; category := Operational |};
    {| id := socialStrategist; name := "Traffic Engine";
       description := "Automated viral traffic generation for X, IG, and LinkedIn.";
       icon := "socialStrategist"; category := Strategic |};
    {| id := podFactory; name := "Product Factory";
       description := "High-margin Print-on-Demand design & listing engine.";
       icon := "podFactory"; category := Creative |};
    {| id := affiliateStudio; name := "Affiliate Studio";
       description := "Generate high-conversion product reviews and landing copy.";
       icon := "affiliateStudio"; category := Strategic |};
    {| id := imageGenerator; name := "Visual Asset Lab";
       description := "Market-ready imagery and marketing visuals.";
       icon := "imageGenerator"; category := Creative |};
    {| id := videoGenerator; name := "Cinematic Ad Gen";
       description := "VEO-powered video commercials for social ads.";
       icon := "videoGenerator"; category := Creative |};
    {| id := researcher; name := "Market Intel";
       description := "Real-time trend analysis via Google Search & Maps.";
       icon := "researcher"; category := Operational |};
    {| id := chatbot; name := "Executive Assistant";
       description := "24/7 strategic advisor and customer support automation.";
       icon := "chatbot"; category := Operational |};
    {| id := liveAssistant; name := "Voice Concierge";
       description := "Real-time voice interface for executive command.";
       icon := "liveAssistant"; category := Operational |};
    {| id := vault; name := "Integrations Vault";
       description := "Secure management for Stripe, PayPal, and Social APIs.";
       icon := "vault"; category := Control |}
  ].

(** [Array.prototype.find]: the first element the callback accepts, or
    [undefined]. *)
Fixpoint Array_find {A} (f : A -> bool) (l : list A) : option A :=
  match l with
  | [] => None
  | x :: r => if f x then Some x else Array_find f r
  end.

(** [FEATURES.find(f => f.id === activeFeature)] (line 377). *)
Definition find_feature (activeFeature : FeatureId) : option Feature :=
  Array_find (fun f => bool_decide (id f = activeFeature)) FEATURES.

(** The badge colour of [ViewContainer] (lines 34-37). *)
Definition badge_colour (f : Feature) : string :=
  match category f with
  | Strategic => "text-amber-500"
  | Creative => "text-emerald-500"
  | _ => "text-indigo-500"
  end.

(** An action the rendered shell offers: the sidebar has one button per
    entry of [FEATURES] (lines 405-419) and no other. *)
Definition offered (a : App.Action) : bool :=
  match a with
  | App.Select f => bool_decide (f ∈ id <$> FEATURES)
  | _ => true
  end.

End Features.

(** ** What the views render *)

Module Render.
Import Types Features.

(** [Array.prototype.map] with a callback that reads the element and its
    index. *)
Fixpoint map_from {A B} (f : A -> Z -> B) (i : Z) (l : list A) : list B :=
  match l with
  | [] => []
  | x :: r => f x i :: map_from f (i + 1)%Z r
  end.

Definition Array_map {A B} (f : A -> Z -> B) (l : list A) : list B :=
  map_from f 0%Z l.

(** One row of the vault's list (lines 130-145): its React key, the classes
    and the icon of its badge, the two texts it shows, and the event its
    button raises. *)
Record Row : Type :=
  { row_key : Z;
    badge : string;
    row_icon : string;
    provider_text : jsstring;
    category_text : jsstring;
    onClick : VaultView.Event }.

Definition is_payment (k : ApiKeyStore) : bool :=
  match Types.category k with payment => true | _ => false end.

Definition rows (st : VaultView.State) : list Row :=
  Array_map (fun k i =>
               {| row_key := i;
                  badge := if is_payment k
                           then "p-2.5 rounded-xl bg-emerald-950 text-emerald-400"
                           else "p-2.5 rounded-xl bg-amber-950 text-amber-400";
                  row_icon := if is_payment k then "money" else "socialStrategist";
                  provider_text := provider k;
                  category_text := VaultView.category_name (Types.category k);
                  onClick := VaultView.ClickDelete i |})
    (VaultView.keys st).

(** The notice of line 129. *)
Definition shows_empty_notice (st : VaultView.State) : bool :=
  match VaultView.keys st with [] => true | _ :: _ => false end.

(** The names each view passes to [Icon], in the order of the source. *)
Definition ViewContainer_icons (feature : Feature) : list string := [icon feature].

Definition DashboardView_icons (feature : Feature) : list string :=
  ViewContainer_icons feature ++ ["podFactory"; "socialStrategist"; "vault"; "money"].

Definition VaultView_icons (feature : Feature) (st : VaultView.State) : list string :=
  ViewContainer_icons feature ++ ["plus"]
  ++ List.concat ((fun r => [row_icon r; "trash"]) <$> rows st).

Definition PodFactoryView_icons (feature : Feature) (st : PodFactoryView.State)
    : list string :=
  ViewContainer_icons feature
  ++ match PodFactoryView.render st with
     | PodFactoryView.Placeholder => ["podFactory"]
     | _ => []
     end.

Definition ChatbotView_icons (feature : Feature) (st : ChatbotView.State) : list string :=
  ViewContainer_icons feature
  ++ match ChatbotView.messages st with [] => ["chatbot"] | _ :: _ => [] end
  ++ ["socialStrategist"].

(** The names the whole page passes to [Icon] (lines 390-443): the logo, the
    sidebar, the current view.  [None] is the [TypeError] of a view reading
    a property of an [undefined] feature. *)
Definition App_icons (app : App.State) (vaultSt : VaultView.State)
    (pod : PodFactoryView.State) (chat : ChatbotView.State) : option (list string) :=
  let sidebar := "money" :: (icon <$> FEATURES) in
  let feature := find_feature (App.activeFeature app) in
  match App.CurrentView app with
  | App.Dashboard => (fun f => sidebar ++ DashboardView_icons f) <$> feature
  | App.Vault => (fun f => sidebar ++ VaultView_icons f vaultSt) <$> feature
  | App.PodFactory => (fun f => sidebar ++ PodFactoryView_icons f pod) <$> feature
  | App.Chatbot _ => (fun f => sidebar ++ ChatbotView_icons f chat) <$> feature
  | App.IntegrationPending => Some (sidebar ++ ["stop"])
  end.

End Render.

(** ** The chat panel's events *)

Module ChatbotEvents.
Import Types GenAI ChatbotView.

(** Typing in the box, a key pressed in it (line 350), the send button
    (line 354), the awaited call settling. *)
Inductive Event : Type :=
  | Type_ (s : jsstring)
  | KeyDown (key : jsstring)
  | ClickSend
  | Settle (o : Settled jsstring).

Definition step (st : State) (ev : Event) : State :=
  match ev with
  | Type_ s => setPrompt s st
  | KeyDown key => if bool_decide (key = js "Enter") then handleSend None st else st
  | ClickSend => handleSend None st
  | Settle o => settle o st
  end.

Definition run (evs : list Event) (st : State) : State := foldl step st evs.

Definition is_user (m : ChatMessage) : bool :=
  match role m with user => true | Types.model => false end.

(** The texts of the user's messages, in order. *)
Definition user_texts (ms : list ChatMessage) : list jsstring :=
  Types.text <$> filter (fun m => is_user m = true) ms.

(** A dialogue: every user message has a text, and a model message comes
    only right after a user message. *)
Fixpoint dialogue (after_user : bool) (ms : list ChatMessage) : bool :=
  match ms with
  | [] => true
  | m :: rest =>
      match role m with
      | user => truthy (Types.text m) && dialogue true rest
      | Types.model => after_user && dialogue false rest
      end
  end.

(** What every event of the panel preserves. *)
Definition well_formed (st : State) : Prop :=
  dialogue false (messages st) = true
  /\ sent st = user_texts (messages st)
  /\ isLoading st = awaiting st
  /\ (awaiting st = true ->
      exists ms t, messages st = ms ++ [{| role := user; Types.text := t |}]).

End ChatbotEvents.

(** ** The product panel's request log *)

Module PodFactoryLog.
Import GenAI PodFactoryView.

(** The requests of one submission: the text request, then the image
    request when the text call gave a strategy. *)
Definition submission_requests (sub : jsstring * bool) : list GenerateContentParameters :=
  if sub.2 then [strategy_request sub.1; image_request sub.1]
  else [strategy_request sub.1].

Definition log_of (subs : list (jsstring * bool)) : list GenerateContentParameters :=
  List.concat (submission_requests <$> subs).

End PodFactoryLog.

(** * Properties *)

(** ** The JSON built-ins *)

Module JSFacts.

Lemma hex_value_digit (d : N) : d < 16 -> hex_value (hex_digit d) = Some d.
Proof.
  intros Hd. unfold hex_digit, hex_value, is_digit.
  destruct (N.ltb_spec d 10) as [Hlt | Hge].
  - replace (48 <=? 48 + d) with true by (symmetry; apply N.leb_le; lia).
    replace (48 + d <=? 57) with true by (symmetry; apply N.leb_le; lia).
    simpl. f_equal. lia.
  - replace (87 + d <=? 57) with false by (symmetry; apply N.leb_gt; lia).
    rewrite andb_false_r.
    replace (97 <=? 87 + d) with true by (symmetry; apply N.leb_le; lia).
    replace (87 + d <=? 102) with true by (symmetry; apply N.leb_le; lia).
    simpl. f_equal. lia.
Qed.

Lemma hex_quads (c : N) :
  c < 65536 ->
  (c / 4096 mod 16) * 4096 + (c / 256 mod 16) * 256 + (c / 16 mod 16) * 16 + c mod 16 = c.
Proof.
  intros Hc.
  replace (c / 256) with (c / 16 / 16) by (rewrite N.Div0.div_div; reflexivity).
  replace (c / 4096) with (c / 16 / 16 / 16) by (rewrite !N.Div0.div_div; reflexivity).
  pose proof (N.div_mod c 16) as H1.
  pose proof (N.div_mod (c / 16) 16) as H2.
  pose proof (N.div_mod (c / 16 / 16) 16) as H3.
  assert (c / 16 / 16 / 16 < 16) as H4.
  { rewrite !N.Div0.div_div. apply N.Div0.div_lt_upper_bound. exact Hc. }
  rewrite (N.mod_small (c / 16 / 16 / 16) 16) by exact H4.
  lia.
Qed.

Lemma parse_chars_escape_u (h3 h2 h1 h0 : N) (r : jsstring) :
  parse_chars (BACKSLASH :: 117 :: h3 :: h2 :: h1 :: h0 :: r) =
  match hex_value h3, hex_value h2, hex_value h1, hex_value h0 with
  | Some a, Some b, Some c, Some d =>
      let* cs, rest := parse_chars r in
      Ok ((a * 4096 + b * 256 + c * 16 + d) :: cs) rest
  | _, _, _, _ => SyntaxError
  end.
Proof. reflexivity. Qed.

Lemma parse_UnicodeEscape (c : N) (r : jsstring) :
  c < 65536 ->
  parse_chars (UnicodeEscape c ++ r) = let* cs, rest := parse_chars r in Ok (c :: cs) rest.
Proof.
  intros Hc.
  change (UnicodeEscape c ++ r)
    with (BACKSLASH :: 117 :: hex_digit (c / 4096 mod 16) :: hex_digit (c / 256 mod 16)
          :: hex_digit (c / 16 mod 16) :: hex_digit (c mod 16) :: r).
  rewrite parse_chars_escape_u.
  rewrite !hex_value_digit by (apply N.mod_lt; discriminate).
  rewrite hex_quads by exact Hc. reflexivity.
Qed.

Lemma parse_chars_raw (c : N) (r : jsstring) :
  (c =? QUOTE) = false -> (c =? BACKSLASH) = false -> (c <? 32) = false ->
  parse_chars (c :: r) = let* cs, rest := parse_chars r in Ok (c :: cs) rest.
Proof. intros H1 H2 H3. simpl. rewrite H1, H2, H3. reflexivity. Qed.

Lemma quote_chars_cons (c : N) (r : jsstring) :
  quote_chars (c :: r) =
  if c =? 8 then BACKSLASH :: 98 :: quote_chars r
  else if c =? 9 then BACKSLASH :: 116 :: quote_chars r
  else if c =? 10 then BACKSLASH :: 110 :: quote_chars r
  else if c =? 12 then BACKSLASH :: 102 :: quote_chars r
  else if c =? 13 then BACKSLASH :: 114 :: quote_chars r
  else if c =? QUOTE then BACKSLASH :: QUOTE :: quote_chars r
  else if c =? BACKSLASH then BACKSLASH :: BACKSLASH :: quote_chars r
  else if c <? 32 then UnicodeEscape c ++ quote_chars r
  else if is_leading_surrogate c then
    match r with
    | d :: r' =>
        if is_trailing_surrogate d then c :: d :: quote_chars r'
        else UnicodeEscape c ++ quote_chars r
    | [] => UnicodeEscape c ++ quote_chars r
    end
  else if is_trailing_surrogate c then UnicodeEscape c ++ quote_chars r
  else c :: quote_chars r.
Proof. reflexivity. Qed.

Lemma surrogate_is_raw (c : N) :
  is_leading_surrogate c || is_trailing_surrogate c = true ->
  (c =? QUOTE) = false /\ (c =? BACKSLASH) = false /\ (c <? 32) = false /\ c < 65536.
Proof.
  unfold is_leading_surrogate, is_trailing_surrogate, QUOTE, BACKSLASH.
  rewrite orb_true_iff, !andb_true_iff, !N.leb_le.
  intros H. rewrite !N.eqb_neq, N.ltb_ge. lia.
Qed.

(** Reading back a quoted String gives the String. *)
Lemma parse_quote_chars (s rest : jsstring) :
  parse_chars (quote_chars s ++ QUOTE :: rest) = Ok s rest.
Proof.
  remember (List.length s) as n eqn:Hn.
  revert s Hn rest. induction n as [n IH] using lt_wf_ind. intros s Hn rest.
  destruct s as [|c r]; [reflexivity|].
  assert (forall rest', parse_chars (quote_chars r ++ QUOTE :: rest') = Ok r rest') as IHr.
  { intros rest'. apply (IH (List.length r)); [subst n; simpl; lia | reflexivity]. }
  assert (forall tl, parse_chars (UnicodeEscape c ++ quote_chars r ++ QUOTE :: tl) = Ok (c :: r) tl
                     \/ 65536 <= c) as Hesc.
  { intros tl. destruct (N.lt_ge_cases c 65536) as [Hc|Hc]; [left|right; exact Hc].
    rewrite parse_UnicodeEscape by exact Hc. rewrite IHr. reflexivity. }
  rewrite quote_chars_cons.
  destruct (N.eqb_spec c 8) as [->|_]; [simpl; rewrite IHr; reflexivity|].
  destruct (N.eqb_spec c 9) as [->|_]; [simpl; rewrite IHr; reflexivity|].
  destruct (N.eqb_spec c 10) as [->|_]; [simpl; rewrite IHr; reflexivity|].
  destruct (N.eqb_spec c 12) as [->|_]; [simpl; rewrite IHr; reflexivity|].
  destruct (N.eqb_spec c 13) as [->|_]; [simpl; rewrite IHr; reflexivity|].
  destruct (c =? QUOTE) eqn:Eq.
  { apply N.eqb_eq in Eq. subst c. simpl. rewrite IHr. reflexivity. }
  destruct (c =? BACKSLASH) eqn:Eb.
  { apply N.eqb_eq in Eb. subst c. simpl. rewrite IHr. reflexivity. }
  destruct (c <? 32) eqn:Ec.
  { rewrite <- app_assoc. destruct (Hesc rest) as [H|H]; [exact H|].
    apply N.ltb_lt in Ec. lia. }
  destruct (is_leading_surrogate c) eqn:El.
  { destruct (surrogate_is_raw c) as (_ & _ & _ & Hc); [rewrite El; reflexivity|].
    destruct r as [|d r'].
    - rewrite <- app_assoc. destruct (Hesc rest) as [H|H]; [exact H|lia].
    - destruct (is_trailing_surrogate d) eqn:Et.
      + destruct (surrogate_is_raw d) as (Hq & Hb & Hl & _);
          [rewrite Et; apply orb_true_r|].
        change ((c :: d :: quote_chars r') ++ QUOTE :: rest)
          with (c :: d :: (quote_chars r' ++ QUOTE :: rest)).
        rewrite (parse_chars_raw c) by assumption.
        rewrite (parse_chars_raw d) by assumption.
        rewrite (IH (List.length r')); [reflexivity|subst n; simpl; lia|reflexivity].
      + rewrite <- app_assoc. destruct (Hesc rest) as [H|H]; [exact H|lia]. }
  destruct (is_trailing_surrogate c) eqn:Et.
  { destruct (surrogate_is_raw c) as (_ & _ & _ & Hc); [rewrite Et; apply orb_true_r|].
    rewrite <- app_assoc. destruct (Hesc rest) as [H|H]; [exact H|lia]. }
  change ((c :: quote_chars r) ++ QUOTE :: rest) with (c :: (quote_chars r ++ QUOTE :: rest)).
  rewrite parse_chars_raw by assumption. rewrite IHr. reflexivity.
Qed.

Lemma parse_value_S (f : nat) (s : jsstring) :
  parse_value (S f) s = value_at (parse_elements f) (parse_members f) s.
Proof. reflexivity. Qed.

Lemma parse_elements_S (f : nat) (s : jsstring) :
  parse_elements (S f) s = elements_at (parse_value f) (parse_elements f) s.
Proof. reflexivity. Qed.

Lemma parse_members_S (f : nat) (s : jsstring) :
  parse_members (S f) s = members_at (parse_value f) (parse_members f) s.
Proof. reflexivity. Qed.

#[local] Arguments parse_value : simpl never.
#[local] Arguments parse_elements : simpl never.
#[local] Arguments parse_members : simpl never.
#[local] Arguments QuoteJSONString : simpl never.

(** A quoted String is read back as that String, whatever follows it. *)
Lemma parse_value_string (f : nat) (s rest : jsstring) :
  parse_value (S f) (QuoteJSONString s ++ rest) = Ok (JStr s) rest.
Proof.
  rewrite parse_value_S. unfold value_at, QuoteJSONString. simpl.
  rewrite <- app_assoc. simpl. rewrite parse_quote_chars. reflexivity.
Qed.

(** One member whose value is a String, followed by a comma or by the
    closing brace. *)
Lemma parse_member_more (f : nat) (name v more : jsstring) :
  parse_members (S (S f))
    (QuoteJSONString name ++ [COLON] ++ QuoteJSONString v ++ [COMMA] ++ more) =
  let* ms, rest := parse_members (S f) more in Ok ((name, JStr v) :: ms) rest.
Proof.
  set (tl := QuoteJSONString v ++ _).
  rewrite parse_members_S. unfold members_at, QuoteJSONString. simpl.
  rewrite <- app_assoc. simpl. rewrite parse_quote_chars. simpl.
  subst tl. rewrite parse_value_string. simpl. reflexivity.
Qed.

Lemma parse_member_last (f : nat) (name v rest : jsstring) :
  parse_members (S (S f))
    (QuoteJSONString name ++ [COLON] ++ QuoteJSONString v ++ [RBRACE] ++ rest) =
  Ok [(name, JStr v)] rest.
Proof.
  set (tl := QuoteJSONString v ++ _).
  rewrite parse_members_S. unfold members_at, QuoteJSONString. simpl.
  rewrite <- app_assoc. simpl. rewrite parse_quote_chars. simpl.
  subst tl. rewrite parse_value_string. simpl. reflexivity.
Qed.

Lemma value_at_object elements members (name tl : jsstring) :
  value_at elements members (LBRACE :: QuoteJSONString name ++ tl) =
  let* ms, rest := members (QuoteJSONString name ++ tl) in Ok (JObj ms) rest.
Proof. reflexivity. Qed.

Lemma value_at_array elements members (tl : jsstring) :
  value_at elements members (LBRACKET :: LBRACE :: tl) =
  let* vs, rest := elements (LBRACE :: tl) in Ok (JArr vs) rest.
Proof. reflexivity. Qed.

Lemma value_at_empty_array elements members (rest : jsstring) :
  value_at elements members (LBRACKET :: RBRACKET :: rest) = Ok (JArr []) rest.
Proof. reflexivity. Qed.

Lemma elements_at_more value elements (s : jsstring) (v : json) (tl : jsstring) :
  value s = Ok v (COMMA :: tl) ->
  elements_at value elements s = let* vs, rest := elements tl in Ok (v :: vs) rest.
Proof. intros H. unfold elements_at. rewrite H. reflexivity. Qed.

Lemma elements_at_last value elements (s : jsstring) (v : json) (tl : jsstring) :
  value s = Ok v (RBRACKET :: tl) ->
  elements_at value elements s = Ok [v] tl.
Proof. intros H. unfold elements_at. rewrite H. reflexivity. Qed.

End JSFacts.

(** ** [JSON.parse] is total *)

Module JSTotal.

Lemma shorter_mono {A} (n m : nat) (p : parsed A) :
  (n <= m)%nat -> shorter n p -> shorter m p.
Proof. destruct p; simpl; intros; try exact I; lia. Qed.

Lemma shorter_bind {A B} (n : nat) (p : parsed A) (k : A -> jsstring -> parsed B) :
  (forall a r, p = Ok a r -> shorter n (k a r)) -> shorter n (bind p k).
Proof. destruct p; simpl; intros H; try exact I. apply H. reflexivity. Qed.

Lemma in_bound_bind {A B} (p : parsed A) (k : A -> jsstring -> parsed B) :
  in_bound p -> (forall a r, p = Ok a r -> in_bound (k a r)) -> in_bound (bind p k).
Proof. destruct p; simpl; intros H1 H2; try exact I; [apply H2; reflexivity | exact H1]. Qed.

Lemma skip_ws_length (s : jsstring) : (List.length (skip_ws s) <= List.length s)%nat.
Proof.
  induction s as [|c r IH]; [reflexivity|].
  simpl. destruct (is_ws c); simpl; lia.
Qed.

Lemma skip_ws_cons (s : jsstring) (c : N) (r : jsstring) :
  skip_ws s = c :: r -> (S (List.length r) <= List.length s)%nat.
Proof. intros H. pose proof (skip_ws_length s) as Hl. rewrite H in Hl. exact Hl. Qed.

Lemma parse_chars_good (n : nat) :
  forall s, (List.length s <= n)%nat ->
    shorter (List.length s) (parse_chars s) /\ in_bound (parse_chars s).
Proof.
  induction n as [|n IH]; intros s Hs.
  - destruct s; [split; exact I | simpl in Hs; lia].
  - destruct s as [|c r]; [split; exact I|].
    assert (forall (t : jsstring) (u : N),
               (List.length t <= List.length r)%nat ->
               shorter (List.length (c :: r))
                 (let* cs, rest := parse_chars t in Ok (u :: cs) rest)
               /\ in_bound (let* cs, rest := parse_chars t in Ok (u :: cs) rest)) as Hrec.
    { intros t u Ht. destruct (IH t) as [H1 H2]; [simpl in Hs; lia|].
      destruct (parse_chars t); simpl in *; split; try exact I; try lia; try exact H2. }
    simpl parse_chars.
    destruct (c =? QUOTE); [split; simpl; [lia | exact I]|].
    destruct (c =? BACKSLASH).
    + destruct r as [|e r1]; [split; exact I|].
      destruct (e =? 117).
      * destruct r1 as [|h3 [|h2 [|h1 [|h0 r2]]]]; try (split; exact I).
        destruct (hex_value h3), (hex_value h2), (hex_value h1), (hex_value h0);
          try (split; exact I).
        apply Hrec. simpl. lia.
      * repeat match goal with
               | |- context [if ?b then _ else _] => destruct b
               end; try (split; exact I); apply Hrec; simpl; lia.
    + destruct (c <? 32); [split; exact I|]. apply Hrec. lia.
Qed.

Lemma span_digits_length (s : jsstring) :
  (List.length (span_digits s).2 <= List.length s)%nat.
Proof.
  induction s as [|c r IH]; [reflexivity|].
  simpl. destruct (is_digit c); [|simpl; lia].
  destruct (span_digits r) as [ds rest]. simpl in *. lia.
Qed.

Lemma opt_char_length (p : N -> bool) (s : jsstring) :
  (List.length (opt_char p s).2 <= List.length s)%nat.
Proof. destruct s as [|c r]; [reflexivity|]. simpl. destruct (p c); simpl; lia. Qed.

Lemma digits1_good (s : jsstring) :
  no_longer (List.length s) (digits1 s) /\ in_bound (digits1 s).
Proof.
  unfold digits1. pose proof (span_digits_length s) as H.
  destruct (span_digits s) as [[|d ds] rest]; simpl in *; split; try exact I; lia.
Qed.

Lemma int_part_good (s : jsstring) :
  shorter (List.length s) (int_part s) /\ in_bound (int_part s).
Proof.
  destruct s as [|c r]; [split; exact I|]. simpl.
  destruct (c =? 48); [split; simpl; [lia | exact I]|].
  destruct (is_digit c); [|split; exact I].
  pose proof (span_digits_length r) as H.
  destruct (span_digits r) as [ds rest]. simpl in *. split; [lia | exact I].
Qed.

Lemma frac_part_good (s : jsstring) :
  no_longer (List.length s) (frac_part s) /\ in_bound (frac_part s).
Proof.
  destruct s as [|c r]; [split; simpl; [lia | exact I]|]. simpl.
  destruct (c =? 46); [|split; simpl; [lia | exact I]].
  destruct (digits1_good r) as [H1 H2].
  destruct (digits1 r); simpl in *; split; try exact I; try lia; exact H2.
Qed.

Lemma exp_part_good (s : jsstring) :
  no_longer (List.length s) (exp_part s) /\ in_bound (exp_part s).
Proof.
  destruct s as [|c r]; [split; simpl; [lia | exact I]|]. simpl.
  destruct ((c =? 101) || (c =? 69)); [|split; simpl; [lia | exact I]].
  pose proof (opt_char_length (fun d => (d =? 43) || (d =? 45)) r) as Ho.
  destruct (opt_char (fun d => (d =? 43) || (d =? 45)) r) as [esign r1]. simpl in Ho.
  destruct (digits1_good r1) as [H1 H2].
  destruct (digits1 r1); simpl in *; split; try exact I; try lia; exact H2.
Qed.

Lemma parse_number_good (s : jsstring) :
  shorter (List.length s) (parse_number s) /\ in_bound (parse_number s).
Proof.
  unfold parse_number.
  pose proof (opt_char_length (N.eqb 45) s) as Ho.
  destruct (opt_char (N.eqb 45) s) as [sign s1]. simpl in Ho.
  destruct (int_part_good s1) as [Hi1 Hi2].
  destruct (int_part s1) as [int s2| |]; simpl in *; [|split; exact I|split; [exact I|exact Hi2]].
  destruct (frac_part_good s2) as [Hf1 Hf2].
  destruct (frac_part s2) as [frac s3| |]; simpl in *; [|split; exact I|split; [exact I|exact Hf2]].
  destruct (exp_part_good s3) as [He1 He2].
  destruct (exp_part s3) as [exp s4| |]; simpl in *; [|split; exact I|split; [exact I|exact He2]].
  split; [lia | exact I].
Qed.

Lemma expect_length (word s rest : jsstring) :
  expect word s = Some rest -> (List.length rest + List.length word = List.length s)%nat.
Proof.
  revert s. induction word as [|w word IH]; intros s H.
  - simpl in H. injection H as <-. simpl. lia.
  - destruct s as [|c r]; [discriminate|]. simpl in H.
    destruct (c =? w); [|discriminate]. apply IH in H. simpl. lia.
Qed.

Lemma parse_literal_good (word : string) (v : json) (s : jsstring) :
  (1 <= List.length (js word))%nat ->
  shorter (List.length s) (parse_literal word v s) /\ in_bound (parse_literal word v s).
Proof.
  intros Hw. unfold parse_literal.
  destruct (expect (js word) s) as [rest|] eqn:E; [|split; exact I].
  apply expect_length in E. split; simpl; [lia | exact I].
Qed.

(** Each nonterminal consumes input, whatever the bound. *)
Lemma value_at_shorter elements members :
  (forall t, shorter (List.length t) (elements t)) ->
  (forall t, shorter (List.length t) (members t)) ->
  forall s, shorter (List.length s) (value_at elements members s).
Proof.
  intros He Hm s. unfold value_at.
  destruct (skip_ws s) as [|c r] eqn:Es; [exact I|].
  apply skip_ws_cons in Es.
  destruct (c =? LBRACE).
  { destruct (skip_ws r) as [|c' r'] eqn:Er; [exact I|].
    apply skip_ws_cons in Er.
    destruct (c' =? RBRACE); [simpl; lia|].
    apply shorter_bind. intros ms rest Hms. specialize (Hm (c' :: r')).
    rewrite Hms in Hm. simpl in *. lia. }
  destruct (c =? LBRACKET).
  { destruct (skip_ws r) as [|c' r'] eqn:Er; [exact I|].
    apply skip_ws_cons in Er.
    destruct (c' =? RBRACKET); [simpl; lia|].
    apply shorter_bind. intros vs rest Hvs. specialize (He (c' :: r')).
    rewrite Hvs in He. simpl in *. lia. }
  destruct (c =? QUOTE).
  { apply shorter_bind. intros str rest Hstr.
    destruct (parse_chars_good (List.length r) r (le_n _)) as [H _].
    rewrite Hstr in H. simpl in *. lia. }
  assert (forall p : parsed json,
             shorter (List.length (c :: r)) p -> shorter (List.length s) p) as Hup.
  { intros p. apply shorter_mono. simpl. lia. }
  destruct (c =? 116); [apply Hup, parse_literal_good; simpl; lia|].
  destruct (c =? 102); [apply Hup, parse_literal_good; simpl; lia|].
  destruct (c =? 110); [apply Hup, parse_literal_good; simpl; lia|].
  apply shorter_bind. intros lit rest Hlit.
  destruct (parse_number_good (c :: r)) as [H _]. rewrite Hlit in H. simpl in *. lia.
Qed.

Lemma elements_at_shorter value elements :
  (forall t, shorter (List.length t) (value t)) ->
  (forall t, shorter (List.length t) (elements t)) ->
  forall s, shorter (List.length s) (elements_at value elements s).
Proof.
  intros Hv He s. unfold elements_at.
  apply shorter_bind. intros v r Hr. specialize (Hv s). rewrite Hr in Hv. simpl in Hv.
  destruct (skip_ws r) as [|c r'] eqn:Er; [exact I|]. apply skip_ws_cons in Er.
  destruct (c =? COMMA).
  { apply shorter_bind. intros vs rest Hvs. specialize (He r'). rewrite Hvs in He.
    simpl in *. lia. }
  destruct (c =? RBRACKET); [simpl; lia | exact I].
Qed.

Lemma members_at_shorter value members :
  (forall t, shorter (List.length t) (value t)) ->
  (forall t, shorter (List.length t) (members t)) ->
  forall s, shorter (List.length s) (members_at value members s).
Proof.
  intros Hv Hm s. unfold members_at.
  destruct (skip_ws s) as [|q r0] eqn:Es; [exact I|]. apply skip_ws_cons in Es.
  destruct (q =? QUOTE); [|exact I].
  apply shorter_bind. intros name r1 Hname.
  destruct (parse_chars_good (List.length r0) r0 (le_n _)) as [H _].
  rewrite Hname in H. simpl in H.
  destruct (skip_ws r1) as [|c1 r2] eqn:E1; [exact I|]. apply skip_ws_cons in E1.
  destruct (c1 =? COLON); [|exact I].
  apply shorter_bind. intros v r3 Hr3. specialize (Hv r2). rewrite Hr3 in Hv. simpl in Hv.
  destruct (skip_ws r3) as [|c r'] eqn:E3; [exact I|]. apply skip_ws_cons in E3.
  destruct (c =? COMMA).
  { apply shorter_bind. intros ms rest Hms. specialize (Hm r'). rewrite Hms in Hm.
    simpl in *. lia. }
  destruct (c =? RBRACE); [simpl; lia | exact I].
Qed.

Lemma parse_shorter (f : nat) :
  forall s,
    shorter (List.length s) (parse_value f s)
    /\ shorter (List.length s) (parse_elements f s)
    /\ shorter (List.length s) (parse_members f s).
Proof.
  induction f as [|f IH]; intros s; [repeat split|].
  split; [|split].
  - apply value_at_shorter; intros t; apply IH.
  - apply elements_at_shorter; intros t; apply IH.
  - apply members_at_shorter; intros t; apply IH.
Qed.

(** With a bound of twice the length of the input the bound is not
    reached. *)
Lemma value_at_in_bound elements members (s : jsstring) :
  (forall t, (List.length t < List.length s)%nat -> in_bound (elements t)) ->
  (forall t, (List.length t < List.length s)%nat -> in_bound (members t)) ->
  in_bound (value_at elements members s).
Proof.
  intros He Hm. unfold value_at.
  destruct (skip_ws s) as [|c r] eqn:Es; [exact I|].
  apply skip_ws_cons in Es.
  destruct (c =? LBRACE).
  { destruct (skip_ws r) as [|c' r'] eqn:Er; [exact I|].
    apply skip_ws_cons in Er.
    destruct (c' =? RBRACE); [exact I|].
    apply in_bound_bind; [apply Hm; simpl; lia | intros; exact I]. }
  destruct (c =? LBRACKET).
  { destruct (skip_ws r) as [|c' r'] eqn:Er; [exact I|].
    apply skip_ws_cons in Er.
    destruct (c' =? RBRACKET); [exact I|].
    apply in_bound_bind; [apply He; simpl; lia | intros; exact I]. }
  destruct (c =? QUOTE).
  { apply in_bound_bind; [|intros; exact I].
    apply (parse_chars_good (List.length r) r (le_n _)). }
  destruct (c =? 116); [apply parse_literal_good; simpl; lia|].
  destruct (c =? 102); [apply parse_literal_good; simpl; lia|].
  destruct (c =? 110); [apply parse_literal_good; simpl; lia|].
  apply in_bound_bind; [apply parse_number_good | intros; exact I].
Qed.

Lemma elements_at_in_bound value elements (s : jsstring) :
  in_bound (value s) -> shorter (List.length s) (value s) ->
  (forall t, (List.length t + 2 <= List.length s)%nat -> in_bound (elements t)) ->
  in_bound (elements_at value elements s).
Proof.
  intros Hv Hs He. unfold elements_at.
  apply in_bound_bind; [exact Hv|]. intros v r Hr. rewrite Hr in Hs. simpl in Hs.
  destruct (skip_ws r) as [|c r'] eqn:Er; [exact I|]. apply skip_ws_cons in Er.
  destruct (c =? COMMA).
  { apply in_bound_bind; [apply He; lia | intros; exact I]. }
  destruct (c =? RBRACKET); exact I.
Qed.

Lemma members_at_in_bound value members (s : jsstring) :
  (forall t, (List.length t + 3 <= List.length s)%nat -> in_bound (value t)) ->
  (forall t, shorter (List.length t) (value t)) ->
  (forall t, (List.length t + 2 <= List.length s)%nat -> in_bound (members t)) ->
  in_bound (members_at value members s).
Proof.
  intros Hv Hs Hm. unfold members_at.
  destruct (skip_ws s) as [|q r0] eqn:Es; [exact I|]. apply skip_ws_cons in Es.
  destruct (q =? QUOTE); [|exact I].
  destruct (parse_chars_good (List.length r0) r0 (le_n _)) as [H1 H2].
  apply in_bound_bind; [exact H2|]. intros name r1 Hname.
  rewrite Hname in H1. simpl in H1.
  destruct (skip_ws r1) as [|c1 r2] eqn:E1; [exact I|]. apply skip_ws_cons in E1.
  destruct (c1 =? COLON); [|exact I].
  apply in_bound_bind; [apply Hv; lia|]. intros v r3 Hr3.
  specialize (Hs r2). rewrite Hr3 in Hs. simpl in Hs.
  destruct (skip_ws r3) as [|c r'] eqn:E3; [exact I|]. apply skip_ws_cons in E3.
  destruct (c =? COMMA).
  { apply in_bound_bind; [apply Hm; lia | intros; exact I]. }
  destruct (c =? RBRACE); exact I.
Qed.

Lemma parse_in_bound (f : nat) :
  forall s,
    ((2 * List.length s + 1 <= f)%nat -> in_bound (parse_value f s))
    /\ ((2 * List.length s + 2 <= f)%nat -> in_bound (parse_elements f s))
    /\ ((2 * List.length s + 2 <= f)%nat -> in_bound (parse_members f s)).
Proof.
  induction f as [|f IH]; intros s; [repeat split; intros H; lia|].
  split; [|split]; intros Hf.
  - apply value_at_in_bound; intros t Ht; apply IH; lia.
  - apply elements_at_in_bound.
    + apply IH. lia.
    + apply parse_shorter.
    + intros t Ht. apply IH. lia.
  - apply members_at_in_bound.
    + intros t Ht. apply IH. lia.
    + intros t. apply parse_shorter.
    + intros t Ht. apply IH. lia.
Qed.

(** [JSON.parse] returns a value or throws a [SyntaxError]: the bound of
    the embedding is never the reason. *)
Lemma JSON_parse_total (text : jsstring) : JSON_parse text <> inr Fuel.
Proof.
  unfold JSON_parse.
  destruct (parse_in_bound (2 * List.length text + 1) text) as [H _].
  specialize (H (le_n _)).
  destruct (parse_value (2 * List.length text + 1) text) as [v rest| |];
    [destruct (skip_ws rest); discriminate | discriminate | destruct H].
Qed.

End JSTotal.

(** ** The vault's serialisation *)

Module VaultCodec.
Import Types VaultView JSFacts.

#[local] Arguments parse_value : simpl never.
#[local] Arguments parse_elements : simpl never.
#[local] Arguments parse_members : simpl never.
#[local] Arguments QuoteJSONString : simpl never.

Lemma SerializeJSONObject_cons (k : ApiKeyStore) :
  SerializeJSONObject k =
  LBRACE :: QuoteJSONString (js "provider") ++ [COLON] ++ QuoteJSONString (provider k)
  ++ [COMMA] ++ QuoteJSONString (js "key") ++ [COLON] ++ QuoteJSONString (key k)
  ++ [COMMA] ++ QuoteJSONString (js "category") ++ [COLON]
  ++ QuoteJSONString (category_name (Types.category k)) ++ [RBRACE].
Proof. reflexivity. Qed.

(** The text of one record is read back as that record's object. *)
Lemma parse_SerializeJSONObject (f : nat) (k : ApiKeyStore) (rest : jsstring) :
  parse_value (5 + f) (SerializeJSONObject k ++ rest) = Ok (to_json k) rest.
Proof.
  rewrite SerializeJSONObject_cons.
  change (5 + f)%nat with (S (S (S (S (S f))))).
  rewrite parse_value_S.
  rewrite <- app_comm_cons, <- !app_assoc.
  rewrite value_at_object.
  rewrite parse_member_more, parse_member_more, parse_member_last.
  reflexivity.
Qed.

Lemma join_comma_cons2 (p q : jsstring) (rest : list jsstring) :
  join_comma (p :: q :: rest) = p ++ COMMA :: join_comma (q :: rest).
Proof. reflexivity. Qed.

(** The elements of a serialised array, up to its closing bracket. *)
Lemma parse_elements_join (ks : list ApiKeyStore) :
  forall (k : ApiKeyStore) (f : nat) (rest : jsstring),
    parse_elements (S (List.length ks + (5 + f)))
      (join_comma (SerializeJSONObject <$> (k :: ks)) ++ RBRACKET :: rest) =
    Ok (to_json <$> (k :: ks)) rest.
Proof.
  induction ks as [|k' ks IH]; intros k f rest.
  - rewrite parse_elements_S.
    apply elements_at_last. apply (parse_SerializeJSONObject f).
  - rewrite parse_elements_S.
    rewrite !fmap_cons, join_comma_cons2, <- app_assoc, <- app_comm_cons.
    rewrite (elements_at_more _ _ _ (to_json k)
               (join_comma (SerializeJSONObject k' :: (SerializeJSONObject <$> ks))
                ++ RBRACKET :: rest)).
    + replace (List.length (k' :: ks) + (5 + f))%nat
        with (S (List.length ks + (5 + f)))%nat by (simpl; lia).
      rewrite <- fmap_cons, IH. reflexivity.
    + replace (List.length (k' :: ks) + (5 + f))%nat
        with (5 + S (List.length ks + f))%nat by (simpl; lia).
      apply parse_SerializeJSONObject.
Qed.

Lemma SerializeJSONObject_head (k : ApiKeyStore) :
  exists tl, SerializeJSONObject k = LBRACE :: tl.
Proof. eexists. apply SerializeJSONObject_cons. Qed.

Lemma join_comma_head (k : ApiKeyStore) (ks : list ApiKeyStore) :
  exists tl, join_comma (SerializeJSONObject <$> (k :: ks)) = LBRACE :: tl.
Proof.
  destruct (SerializeJSONObject_head k) as [tl Htl].
  destruct ks as [|k' ks].
  - exists tl. exact Htl.
  - rewrite !fmap_cons, join_comma_cons2, Htl. eexists. reflexivity.
Qed.

Lemma join_comma_parts_length (parts : list jsstring) :
  Forall (fun p => (1 <= List.length p)%nat) parts ->
  (List.length parts <= List.length (join_comma parts))%nat.
Proof.
  induction 1 as [|p parts Hp Hparts IH]; [simpl; lia|].
  destruct parts as [|q parts]; [simpl; lia|].
  rewrite join_comma_cons2, length_app.
  change (List.length (COMMA :: join_comma (q :: parts)))
    with (S (List.length (join_comma (q :: parts)))).
  change (List.length (p :: q :: parts)) with (S (List.length (q :: parts))).
  lia.
Qed.

Lemma join_comma_length (ks : list ApiKeyStore) :
  (List.length ks <= List.length (join_comma (SerializeJSONObject <$> ks)))%nat.
Proof.
  rewrite <- (length_fmap SerializeJSONObject ks) at 1.
  apply join_comma_parts_length, Forall_fmap, Forall_forall.
  intros k _. destruct (SerializeJSONObject_head k) as [tl Htl].
  unfold compose. rewrite Htl. simpl. lia.
Qed.

(** The whole serialised array, read with any bound large enough. *)
Lemma parse_JSON_stringify (ks : list ApiKeyStore) (f : nat) (rest : jsstring) :
  parse_value (S (List.length ks + (5 + f))) (JSON_stringify ks ++ rest) =
  Ok (JArr (to_json <$> ks)) rest.
Proof.
  destruct ks as [|k ks]; [reflexivity|].
  pose proof (parse_elements_join ks k f rest) as Hel.
  destruct (join_comma_head k ks) as [tl Htl].
  unfold JSON_stringify.
  set (J := join_comma (SerializeJSONObject <$> k :: ks)) in *.
  change (([LBRACKET] ++ J ++ [RBRACKET]) ++ rest) with (LBRACKET :: ((J ++ [RBRACKET]) ++ rest)).
  rewrite <- app_assoc.
  change ([RBRACKET] ++ rest) with (RBRACKET :: rest).
  rewrite parse_value_S.
  change (List.length (k :: ks) + (5 + f))%nat with (S (List.length ks + (5 + f)))%nat.
  rewrite Htl at 1. rewrite <- app_comm_cons, value_at_array, app_comm_cons, <- Htl.
  rewrite Hel. reflexivity.
Qed.

(** [JSON.parse] after [JSON.stringify] on a credential sequence. *)
Lemma JSON_parse_stringify (ks : list ApiKeyStore) :
  JSON_parse (JSON_stringify ks) = inl (JArr (to_json <$> ks)).
Proof.
  destruct ks as [|k0 ks0] eqn:Hks; [reflexivity|]. rewrite <- Hks.
  assert (1 <= List.length ks)%nat as Hne by (subst ks; simpl; lia).
  clear Hks. unfold JSON_parse.
  pose proof (join_comma_length ks) as Hlen.
  assert (List.length (JSON_stringify ks)
          = S (S (List.length (join_comma (SerializeJSONObject <$> ks))))) as Htext.
  { unfold JSON_stringify. rewrite !length_app. simpl. lia. }
  replace (2 * List.length (JSON_stringify ks) + 1)%nat
    with (S (List.length ks
             + (5 + (2 * List.length (JSON_stringify ks) - List.length ks - 5))))%nat by lia.
  rewrite <- (app_nil_r (JSON_stringify ks)) at 2.
  rewrite parse_JSON_stringify. reflexivity.
Qed.

Lemma category_of_category_name (c : KeyCategory) :
  category_of_name (category_name c) = Some c.
Proof. destruct c; reflexivity. Qed.

Lemma as_ApiKeyStore_to_json (k : ApiKeyStore) : as_ApiKeyStore (to_json k) = Some k.
Proof. destruct k as [p s c]. destruct c; reflexivity. Qed.

Lemma as_keys_to_json (ks : list ApiKeyStore) : as_keys (JArr (to_json <$> ks)) = Some ks.
Proof.
  unfold as_keys. induction ks as [|k ks IH]; [reflexivity|].
  rewrite fmap_cons. cbn [mapM]. rewrite as_ApiKeyStore_to_json, IH. reflexivity.
Qed.

Lemma truthy_JSON_stringify (ks : list ApiKeyStore) : truthy (JSON_stringify ks) = true.
Proof. reflexivity. Qed.

End VaultCodec.

(** ** The vault *)

Module VaultProps.
Import Types VaultView VaultCodec.

(** [filter] with the callback of [deleteKey], started at index [i]. *)
Lemma filter_from_above {A} (index : Z) (l : list A) :
  forall i : Z, (index < i)%Z ->
    filter_from (fun _ j => negb (j =? index)%Z) i l = l.
Proof.
  induction l as [|x l IH]; intros i Hi; [reflexivity|].
  simpl. destruct (Z.eqb_spec i index) as [->|_]; [lia|].
  simpl. rewrite IH by lia. reflexivity.
Qed.

Lemma filter_from_delete {A} (index : Z) (l : list A) :
  forall i : Z, (i <= index)%Z ->
    filter_from (fun _ j => negb (j =? index)%Z) i l = delete (Z.to_nat (index - i)) l.
Proof.
  induction l as [|x l IH]; intros i Hi; [reflexivity|].
  simpl. destruct (Z.eqb_spec i index) as [->|Hne]; simpl.
  - rewrite Z.sub_diag. simpl. apply filter_from_above. lia.
  - rewrite IH by lia.
    replace (Z.to_nat (index - i)) with (S (Z.to_nat (index - (i + 1)))) by lia.
    reflexivity.
Qed.

Lemma Array_filter_delete {A} (index : Z) (l : list A) :
  (0 <= index)%Z ->
  Array_filter (fun _ j => negb (j =? index)%Z) l = delete (Z.to_nat index) l.
Proof.
  intros H. unfold Array_filter. rewrite filter_from_delete by exact H.
  rewrite Z.sub_0_r. reflexivity.
Qed.

Lemma delete_beyond {A} (l : list A) :
  forall i : nat, (List.length l <= i)%nat -> delete i l = l.
Proof.
  induction l as [|x l IH]; intros i Hi; [destruct i; reflexivity|].
  destruct i as [|i]; [simpl in Hi; lia|].
  simpl. f_equal. apply IH. simpl in Hi. lia.
Qed.

Lemma Array_filter_negative {A} (index : Z) (l : list A) :
  (index < 0)%Z -> Array_filter (fun _ j => negb (j =? index)%Z) l = l.
Proof. intros H. apply filter_from_above. exact H. Qed.

Lemma persisted_saveKeys (ks : list ApiKeyStore) (st : State) :
  persisted (saveKeys ks st) = Some (JSON_stringify ks).
Proof. unfold persisted, saveKeys. simpl. apply lookup_insert_eq. Qed.

(** A remount over a store that holds a serialised sequence loads it. *)
Lemma mount_persisted (ls : gmap string jsstring) (ks : list ApiKeyStore) :
  ls !! storage_key = Some (JSON_stringify ks) ->
  mount ls = Mounted (setKeys ks (initial ls)).
Proof.
  intros H. unfold mount. rewrite H, truthy_JSON_stringify, JSON_parse_stringify.
  rewrite as_keys_to_json. reflexivity.
Qed.

Lemma mount_absent (ls : gmap string jsstring) :
  ls !! storage_key = None -> mount ls = Mounted (initial ls).
Proof. intros H. unfold mount. rewrite H. reflexivity. Qed.

Lemma in_sync_addKey (st : State) : in_sync st -> in_sync (addKey st).
Proof.
  intros H. unfold addKey.
  destruct (negb (truthy (newProvider st)) || negb (truthy (newKey st))); [exact H|].
  right. apply persisted_saveKeys.
Qed.

Lemma in_sync_step (st : State) (ev : Event) : in_sync st -> in_sync (step st ev).
Proof.
  intros H. destruct ev; simpl; try exact H.
  - apply in_sync_addKey, H.
  - right. apply persisted_saveKeys.
Qed.

Lemma in_sync_run (evs : list Event) :
  forall st, in_sync st -> in_sync (run evs st).
Proof.
  induction evs as [|ev evs IH]; intros st H; [exact H|].
  apply IH, in_sync_step, H.
Qed.

Lemma in_sync_apply_all (ops : list Op) :
  forall st, in_sync st -> in_sync (apply_all ops st).
Proof.
  induction ops as [|op ops IH]; intros st H; [exact H|].
  apply IH. apply in_sync_run, H.
Qed.

Lemma in_sync_reload (st : State) :
  in_sync st -> reload st = Mounted (setKeys (keys st) (initial (localStorage st))).
Proof.
  intros [[Hp Hk] | Hp]; unfold reload.
  - rewrite mount_absent by exact Hp. rewrite Hk. reflexivity.
  - apply mount_persisted, Hp.
Qed.

Lemma apply_rejected (st : State) (op : Op) :
  rejected op = true ->
  keys (apply st op) = keys st /\ localStorage (apply st op) = localStorage st.
Proof.
  destruct op as [r|i]; [|discriminate]. intros H.
  unfold apply, run, events_of. simpl. unfold addKey. simpl.
  simpl in H. rewrite H. simpl. split; reflexivity.
Qed.

Lemma apply_accepted (st : State) (op : Op) :
  rejected op = false ->
  persisted (apply st op) = Some (JSON_stringify (keys (apply st op))).
Proof.
  destruct op as [r|i]; intros H.
  - unfold apply, run, events_of. simpl. unfold addKey. simpl.
    simpl in H. rewrite H. simpl. apply lookup_insert_eq.
  - apply persisted_saveKeys.
Qed.

Lemma synced_apply (st : State) (op : Op) : synced st -> synced (apply st op).
Proof.
  intros H. destruct (rejected op) eqn:E.
  - destruct (apply_rejected st op E) as [Hk Hl].
    unfold synced, persisted in *. rewrite Hk, Hl. exact H.
  - apply apply_accepted, E.
Qed.

Lemma synced_apply_all (ops : list Op) :
  forall st, synced st -> synced (apply_all ops st).
Proof.
  induction ops as [|op ops IH]; intros st H; [exact H|].
  apply IH, synced_apply, H.
Qed.

Lemma apply_all_rejected (ops : list Op) :
  forall st, forallb rejected ops = true ->
    keys (apply_all ops st) = keys st /\ localStorage (apply_all ops st) = localStorage st.
Proof.
  induction ops as [|op ops IH]; intros st H; [split; reflexivity|].
  simpl in H. apply andb_true_iff in H as [H1 H2].
  destruct (apply_rejected st op H1) as [Hk Hl].
  destruct (IH (apply st op) H2) as [Hk' Hl'].
  change (apply_all (op :: ops) st) with (apply_all ops (apply st op)).
  rewrite Hk', Hl'. split; assumption.
Qed.

Lemma apply_all_accepted (ops : list Op) :
  forall st, forallb rejected ops = false -> synced (apply_all ops st).
Proof.
  induction ops as [|op ops IH]; intros st H; [discriminate|].
  change (apply_all (op :: ops) st) with (apply_all ops (apply st op)).
  simpl in H. destruct (rejected op) eqn:E.
  - apply IH. exact H.
  - apply synced_apply_all. apply apply_accepted, E.
Qed.

(** C1, as the code has it.  From a store with nothing persisted, after
    any sequence of [add] and [delete] operations: while every operation so
    far was an [add] turned down by the guard, nothing has been persisted
    and the sequence in memory is empty; from the first accepted operation
    on, the persisted value is the sequence in memory serialised.  In both
    cases a remount loads exactly the sequence in memory.  A prefix of a
    sequence of operations is such a sequence, so this is the state after
    each operation. *)
Theorem vault_persisted_round_trip (ls : gmap string jsstring) (ops : list Op) :
  ls !! storage_key = None ->
  let st := apply_all ops (initial ls) in
  (if forallb rejected ops
   then persisted st = None /\ keys st = []
   else persisted st = Some (JSON_stringify (keys st)))
  /\ exists st', reload st = Mounted st' /\ keys st' = keys st.
Proof.
  intros Hls st. split.
  - destruct (forallb rejected ops) eqn:E.
    + destruct (apply_all_rejected ops (initial ls) E) as [Hk Hl].
      subst st. unfold persisted. rewrite Hk, Hl. split; [exact Hls | reflexivity].
    + apply apply_all_accepted, E.
  - exists (setKeys (keys st) (initial (localStorage st))). split; [|reflexivity].
    apply in_sync_reload. subst st. apply in_sync_apply_all.
    left. split; [exact Hls | reflexivity].
Qed.

Lemma vault_persisted_round_trip_witness :
  let st := apply_all [Add no_provider; Add stripe; Add gumroad; Delete 0] (initial ∅) in
  (persisted st = Some (JSON_stringify (keys st)))
  /\ exists st', reload st = Mounted st' /\ keys st' = keys st.
Proof.
  exact (vault_persisted_round_trip ∅ [Add no_provider; Add stripe; Add gumroad; Delete 0]
           eq_refl).
Defined.

(** C1 as stated fails: after an [add] with an empty provider nothing has
    been persisted, so the persisted value is not the serialised sequence. *)
Lemma vault_persisted_counterexample :
  let st := apply_all [Add no_provider] (initial ∅) in
  keys st = [] /\ persisted st = None
  /\ persisted st <> Some (JSON_stringify (keys st)).
Proof. vm_compute. repeat split. discriminate. Qed.

(** The scenario of the spec: one record is added to an empty vault and
    reloads to an identical record; deleting position 0 empties the vault
    and the persisted value is the empty array. *)
Example vault_scenario :
  let st1 := apply (initial ∅) (Add stripe) in
  let st2 := apply st1 (Delete 0) in
  keys st1 = [stripe]
  /\ reload st1 = Mounted (setKeys [stripe] (initial (localStorage st1)))
  /\ keys st2 = [] /\ persisted st2 = Some (js "[]").
Proof. vm_compute. repeat split. Qed.

(** C3 at its failing input: a persisted value that is no JSON text makes
    the mount effect throw the [SyntaxError] of [JSON.parse]. *)
Theorem mount_malformed_value_throws :
  mount {[ storage_key := js "not json" ]} = Threw Syntax.
Proof. vm_compute. reflexivity. Qed.

(** What the guard of the mount effect does cover: no persisted value, or
    the empty String, leaves the empty sequence. *)
Lemma mount_missing_value (ls : gmap string jsstring) :
  ls !! storage_key = None \/ ls !! storage_key = Some [] ->
  mount ls = Mounted (initial ls) /\ keys (initial ls) = [].
Proof.
  intros [H|H]; unfold mount; rewrite H; split; reflexivity.
Qed.

(** The effect throws for no other reason than a [SyntaxError]. *)
Lemma mount_throws_syntax (ls : gmap string jsstring) (e : parse_error) :
  mount ls = Threw e -> e = Syntax.
Proof.
  unfold mount. destruct (ls !! storage_key) as [saved|]; [|discriminate].
  destruct (truthy saved); [|discriminate].
  pose proof (JSTotal.JSON_parse_total saved) as Ht.
  destruct (JSON_parse saved) as [j|e']; [destruct (as_keys j); discriminate|].
  intros H. injection H as <-. destruct e'; [reflexivity | congruence].
Qed.

(** Every persisted value [JSON.parse] rejects makes the effect throw. *)
Lemma mount_rejected_value (ls : gmap string jsstring) (saved : jsstring) (e : parse_error) :
  ls !! storage_key = Some saved -> truthy saved = true -> JSON_parse saved = inr e ->
  mount ls = Threw e.
Proof. intros H1 H2 H3. unfold mount. rewrite H1, H2, H3. reflexivity. Qed.

(** C8.  In a vault of [N] records, [deleteKey i] with [0 <= i < N] removes
    the record at position [i] and no other: the records before [i] keep
    their positions, the records after it move up by one, and [N - 1]
    records remain. *)
Theorem deleteKey_removes_position (st : State) (i : Z) :
  (0 <= i < Z.of_nat (List.length (keys st)))%Z ->
  let st' := deleteKey i st in
  keys st' = take (Z.to_nat i) (keys st) ++ drop (S (Z.to_nat i)) (keys st)
  /\ List.length (keys st') = (List.length (keys st) - 1)%nat
  /\ (forall j : nat, (j < Z.to_nat i)%nat -> keys st' !! j = keys st !! j)
  /\ (forall j : nat, (Z.to_nat i <= j)%nat -> keys st' !! j = keys st !! S j).
Proof.
  intros Hi st'.
  assert (keys st' = delete (Z.to_nat i) (keys st)) as Hdel.
  { subst st'. unfold deleteKey. simpl. apply Array_filter_delete. lia. }
  rewrite Hdel. repeat split.
  - apply delete_take_drop.
  - rewrite length_delete; [reflexivity|]. apply lookup_lt_is_Some. lia.
  - intros j Hj. apply list_lookup_delete_lt. exact Hj.
  - intros j Hj. apply list_lookup_delete_ge. exact Hj.
Qed.

Lemma deleteKey_removes_position_witness :
  let st := apply_all [Add stripe; Add gumroad; Add twitter] (initial ∅) in
  keys st = [stripe; gumroad; twitter] /\ keys (deleteKey 1 st) = [stripe; twitter].
Proof.
  split; [reflexivity|].
  pose proof (deleteKey_removes_position
                (apply_all [Add stripe; Add gumroad; Add twitter] (initial ∅)) 1) as H.
  simpl in H. destruct H as [H _]; [lia|]. exact H.
Defined.

(** C10.  In a vault of [N] records, [deleteKey i] with [i < 0] or [N <= i]
    returns (the embedding is a total function), leaves the sequence as it
    was, and persists that same sequence again. *)
Theorem deleteKey_out_of_range (st : State) (i : Z) :
  (i < 0 \/ Z.of_nat (List.length (keys st)) <= i)%Z ->
  let st' := deleteKey i st in
  keys st' = keys st
  /\ List.length (keys st') = List.length (keys st)
  /\ persisted st' = Some (JSON_stringify (keys st)).
Proof.
  intros Hi st'.
  assert (keys st' = keys st) as Hk.
  { subst st'. unfold deleteKey. simpl. destruct Hi as [Hi|Hi].
    - apply Array_filter_negative, Hi.
    - rewrite Array_filter_delete by lia. apply delete_beyond. lia. }
  split; [exact Hk|]. split; [rewrite Hk; reflexivity|].
  subst st'. unfold deleteKey. rewrite persisted_saveKeys. f_equal. f_equal.
  exact Hk.
Qed.

Lemma deleteKey_out_of_range_witness :
  let st := apply_all [Add stripe; Add gumroad] (initial ∅) in
  (keys (deleteKey 2 st) = keys st /\ keys (deleteKey (-1) st) = keys st)
  /\ persisted (deleteKey 2 st) = Some (JSON_stringify [stripe; gumroad]).
Proof.
  pose proof (deleteKey_out_of_range
                (apply_all [Add stripe; Add gumroad] (initial ∅)) 2) as H2.
  pose proof (deleteKey_out_of_range
                (apply_all [Add stripe; Add gumroad] (initial ∅)) (-1)) as H1.
  simpl in H1, H2.
  destruct H2 as (Ha & _ & Hb); [right; lia|].
  destruct H1 as (Hc & _ & _); [left; lia|].
  split; [split; [exact Ha | exact Hc] | exact Hb].
Defined.

(** C9.  [add(record)] with an empty provider or an empty secret changes
    neither the sequence nor [localStorage]; any other [add] appends the
    record at the end of the sequence and, in the same step, persists the
    whole new sequence. *)
Theorem add_appends_or_is_noop (st : State) (r : ApiKeyStore) :
  (provider r = [] \/ key r = [] ->
     keys (apply st (Add r)) = keys st
     /\ List.length (keys (apply st (Add r))) = List.length (keys st)
     /\ localStorage (apply st (Add r)) = localStorage st)
  /\ (provider r <> [] -> key r <> [] ->
       keys (apply st (Add r)) = keys st ++ [r]
       /\ persisted (apply st (Add r)) = Some (JSON_stringify (keys st ++ [r]))).
Proof.
  split.
  - intros H.
    assert (rejected (Add r) = true) as Hrej.
    { simpl. destruct H as [-> | ->]; [reflexivity | apply orb_true_r]. }
    destruct (apply_rejected st (Add r) Hrej) as [Hk Hl].
    rewrite Hk. repeat split. exact Hl.
  - intros Hp Hs.
    destruct r as [p s c]. simpl in Hp, Hs.
    destruct p as [|p0 p]; [congruence|]. destruct s as [|s0 s]; [congruence|].
    unfold apply, run, events_of. simpl. unfold addKey. simpl.
    split; [reflexivity|]. apply lookup_insert_eq.
Qed.

Lemma add_appends_or_is_noop_witness :
  let st := apply (initial ∅) (Add stripe) in
  (keys (apply st (Add no_provider)) = [stripe] /\ keys (apply st (Add no_secret)) = [stripe])
  /\ keys (apply st (Add gumroad)) = [stripe; gumroad]
  /\ persisted (apply st (Add gumroad)) = Some (JSON_stringify [stripe; gumroad]).
Proof.
  pose proof (add_appends_or_is_noop (apply (initial ∅) (Add stripe)) no_provider) as [H1 _].
  pose proof (add_appends_or_is_noop (apply (initial ∅) (Add stripe)) no_secret) as [H2 _].
  pose proof (add_appends_or_is_noop (apply (initial ∅) (Add stripe)) gumroad) as [_ H3].
  destruct H1 as (H1 & _); [left; reflexivity|].
  destruct H2 as (H2 & _); [right; reflexivity|].
  destruct H3 as (H3 & H4); [discriminate | discriminate |].
  split; [split; [exact H1 | exact H2] | split; [exact H3 | exact H4]].
Defined.

(** The handler itself: under the guard [addKey] returns the state it
    was given, the form included. *)
Lemma addKey_guard (st : State) :
  newProvider st = [] \/ newKey st = [] -> addKey st = st.
Proof.
  intros H. unfold addKey. destruct H as [-> | ->]; [reflexivity|].
  rewrite orb_true_r. reflexivity.
Qed.

End VaultProps.

(** ** The product-listing panel *)

Module PodFactoryProps.
Import GenAI PodFactoryView.


Lemma generateProduct_loading (st : State) : isLoading st = true -> generateProduct st = st.
Proof. intros H. unfold generateProduct. rewrite H, orb_true_r. reflexivity. Qed.



Lemma generateProduct_accepted (st : State) :
  accepted st ->
  generateProduct st =
  {| prompt := prompt st; isLoading := true; results := None;
     awaiting := Strategy (prompt st);
     requests := requests st ++ [strategy_request (prompt st)];
     console := console st |}.
Proof. intros [Hp Hl]. unfold generateProduct. rewrite Hp, Hl. reflexivity. Qed.

Lemma settle_Strategy (st : State) (p : jsstring) (o : Settled GenerateContentResponse) :
  awaiting st = Strategy p ->
  settle o st =
  match read_strategy o with
  | inl e => failed e st
  | inr strategy =>
      {| prompt := prompt st; isLoading := isLoading st; results := results st;
         awaiting := Image p strategy; requests := requests st ++ [image_request p];
         console := console st |}
  end.
Proof. intros H. unfold settle. rewrite H. reflexivity. Qed.

Lemma settle_Image (st : State) (p : jsstring) (strategy : json)
    (o : Settled GenerateContentResponse) :
  awaiting st = Image p strategy ->
  settle o st =
  match read_listing strategy o with
  | inl e => failed e st
  | inr r =>
      {| prompt := prompt st; isLoading := false; results := Some r;
         awaiting := Nothing; requests := requests st; console := console st |}
  end.
Proof. intros H. unfold settle. rewrite H. reflexivity. Qed.



(** X7.  Single flight: on every trace of events from the initial panel,
    the loading flag is set exactly while a call is awaited, and the result
    is empty while it is set. *)
Lemma single_flight (evs : list Event) :
  let st := run evs initial in
  (isLoading st = true <-> awaiting st <> Nothing)
  /\ (isLoading st = true -> results st = None).
Proof.
  assert (forall evs st,
             ((isLoading st = true <-> awaiting st <> Nothing)
              /\ (isLoading st = true -> results st = None)) ->
             (isLoading (run evs st) = true <-> awaiting (run evs st) <> Nothing)
             /\ (isLoading (run evs st) = true -> results (run evs st) = None)) as Hinv.
  { clear evs. induction evs as [|ev evs IH]; intros st Hst; [exact Hst|].
    apply IH. destruct Hst as [[H1 H2] H3]. destruct ev as [t| |o]; simpl.
    - split; [split|]; assumption.
    - unfold generateProduct.
      destruct (negb (truthy (prompt st)) || isLoading st); [split; [split|]; assumption|].
      simpl. split; [split|]; intros; [discriminate | reflexivity | reflexivity].
    - unfold settle. destruct (awaiting st) as [|p|p strategy] eqn:Ha.
      + simpl. rewrite Ha. split; [split|]; assumption.
      + destruct (read_strategy o); simpl.
        * split; [split|]; intros; [discriminate | congruence | discriminate].
        * split; [split|]; intros; [discriminate | |].
          -- apply H2. discriminate.
          -- apply H3. assumption.
      + destruct (read_listing strategy o); simpl;
          (split; [split|]; intros; [discriminate | congruence | discriminate]). }
  apply Hinv. simpl. split; [split|]; intros; [discriminate | congruence | reflexivity].
Qed.




(** C2, as the code has it.  An accepted submission clears the result
    before its first call, so when the submission fails, in either step,
    the result is empty and the panel shows its placeholder: nothing
    partial, and no earlier listing either.  The error is logged. *)
Theorem failed_submission_shows_nothing (st : State)
    (o1 o2 : Settled GenerateContentResponse) :
  accepted st ->
  let s1 := generateProduct st in
  results s1 = None
  /\ (forall e, read_strategy o1 = inl e ->
        let s := settle o1 s1 in
        results s = None /\ render s = Placeholder /\ console s = console st ++ [e])
  /\ (forall strategy e, read_strategy o1 = inr strategy -> read_listing strategy o2 = inl e ->
        let s := settle o2 (settle o1 s1) in
        results s = None /\ render s = Placeholder /\ console s = console st ++ [e]).
Proof.
  intros Hacc s1.
  pose proof (generateProduct_accepted st Hacc) as Hg. fold s1 in Hg.
  assert (awaiting s1 = Strategy (prompt st)) as Ha by (rewrite Hg; reflexivity).
  split; [rewrite Hg; reflexivity|]. split.
  - intros e He s. subst s.
    rewrite (settle_Strategy s1 (prompt st) o1 Ha), He, Hg. repeat split.
  - intros strategy e Hs He s. subst s.
    rewrite (settle_Strategy s1 (prompt st) o1 Ha), Hs.
    rewrite (settle_Image _ (prompt st) strategy o2) by reflexivity.
    rewrite He, Hg. repeat split.
Qed.

Lemma failed_submission_shows_nothing_witness :
  results (settle Rejected (generateProduct listed)) = None
  /\ results (settle Rejected (settle (Fulfilled strategy_response) (generateProduct listed)))
     = None.
Proof.
  pose proof (failed_submission_shows_nothing listed (Fulfilled strategy_response) Rejected)
    as H0.
  pose proof (failed_submission_shows_nothing listed Rejected Rejected) as H1.
  destruct H0 as (_ & _ & H0); [split; reflexivity|].
  destruct H1 as (_ & H1 & _); [split; reflexivity|].
  split.
  - exact (proj1 (H1 ServiceError eq_refl)).
  - exact (proj1 (H0 _ ServiceError eq_refl eq_refl)).
Defined.

(** C2 as stated fails: a panel that shows a listing shows none after a
    failed submission. *)
Lemma failed_submission_counterexample :
  let after := run [Click; Settle Rejected] listed in
  (exists r, results listed = Some r /\ render listed = Listing r)
  /\ results after = None /\ render after = Placeholder
  /\ results after <> results listed.
Proof.
  vm_compute. split; [eexists; split; reflexivity|].
  repeat split. discriminate.
Qed.

Lemma strategy_request_is_not_image_request (p q : jsstring) :
  strategy_request p <> image_request q.
Proof.
  intros H. apply (f_equal model) in H. vm_compute in H. discriminate.
Qed.



End PodFactoryProps.

(** ** The chat panel and the shell *)

Module ChatbotProps.
Import Types GenAI ChatbotView.

Lemma handleSend_loading (st : State) (msgOverride : option jsstring) :
  isLoading st = true -> handleSend msgOverride st = st.
Proof. intros H. unfold handleSend. rewrite H, orb_true_r. reflexivity. Qed.

(** Mounting with a non-empty seed: the seed is sent as the first message,
    the input box is not touched. *)
Lemma mount_seeded (X : jsstring) :
  truthy X = true ->
  mount (Some X) =
  {| messages := [{| role := user; Types.text := X |}]; prompt := []; isLoading := true;
     awaiting := true; sent := [X]; console := [] |}.
Proof.
  intros H. destruct X as [|c X]; [discriminate | reflexivity].
Qed.

(** The guard of the mount effect: no seed, or an empty one, sends nothing. *)
Lemma mount_unseeded : mount None = initial /\ mount (Some []) = initial.
Proof. split; reflexivity. Qed.

(** The seed the shell holds is absent or the ROBIN HOOD prompt. *)
Lemma shell_seed (acts : list App.Action) :
  forall st : App.State,
    App.chatbotInitialPrompt st = None
    \/ App.chatbotInitialPrompt st = Some App.robin_hood_prompt ->
    App.chatbotInitialPrompt (App.run acts st) = None
    \/ App.chatbotInitialPrompt (App.run acts st) = Some App.robin_hood_prompt.
Proof.
  induction acts as [|a acts IH]; intros st H; [exact H|].
  apply IH. destruct a as [|f|]; simpl.
  - destruct (App.CurrentView st); try exact H. right. reflexivity.
  - left. reflexivity.
  - exact H.
Qed.

Lemma shell_chat_seed (acts : list App.Action) (X : jsstring) :
  App.CurrentView (App.run acts App.initial) = App.Chatbot (Some X) ->
  X = App.robin_hood_prompt.
Proof.
  intros H.
  destruct (shell_seed acts App.initial (or_introl eq_refl)) as [Hs|Hs];
    unfold App.CurrentView in H;
    destruct (App.activeFeature (App.run acts App.initial)); try discriminate;
    rewrite Hs in H; congruence.
Qed.

(** C7.  Whenever the shell renders the chat panel with a seed [X], the
    mounted panel already holds the user message [X], has sent [X] to the
    chat session and is loading, with the input box still empty; when the
    call is fulfilled exactly one model message, the reply, follows the
    user message, and nothing more is appended afterwards. *)
Theorem seeded_chat_sends_seed (acts : list App.Action) (X : jsstring) :
  App.CurrentView (App.run acts App.initial) = App.Chatbot (Some X) ->
  let st := mount (Some X) in
  messages st = [{| role := user; Types.text := X |}]
  /\ prompt st = [] /\ isLoading st = true /\ sent st = [X]
  /\ forall reply : jsstring,
       let st' := settle (Fulfilled reply) st in
       messages st' = [{| role := user; Types.text := X |}; {| role := Types.model; Types.text := reply |}]
       /\ isLoading st' = false /\ sent st' = [X]
       /\ forall o, settle o st' = st'.
Proof.
  intros H st.
  assert (truthy X = true) as HX by (rewrite (shell_chat_seed acts X H); reflexivity).
  subst st. rewrite (mount_seeded X HX). repeat split.
Qed.

Lemma seeded_chat_sends_seed_witness :
  let st := mount (Some App.robin_hood_prompt) in
  messages st = [{| role := user; Types.text := App.robin_hood_prompt |}]
  /\ forall reply : jsstring,
       messages (settle (Fulfilled reply) st) =
       [{| role := user; Types.text := App.robin_hood_prompt |};
        {| role := Types.model; Types.text := reply |}].
Proof.
  pose proof (seeded_chat_sends_seed [App.PressRobinHood] App.robin_hood_prompt eq_refl)
    as H.
  cbv zeta in H. destruct H as (H1 & _ & _ & _ & H2).
  split; [exact H1|]. intros reply. exact (proj1 (H2 reply)).
Defined.

(** The same holds for every non-empty seed, whoever supplies it. *)
Lemma nonempty_seed_is_sent (X reply : jsstring) :
  X <> [] ->
  messages (mount (Some X)) = [{| role := user; Types.text := X |}]
  /\ messages (settle (Fulfilled reply) (mount (Some X))) =
     [{| role := user; Types.text := X |}; {| role := Types.model; Types.text := reply |}].
Proof.
  intros HX. rewrite mount_seeded by (destruct X; [congruence | reflexivity]).
  split; reflexivity.
Qed.

End ChatbotProps.

(** ** Single flight *)

Module PanelProps.
Import GenAI.

(** C5.  While a panel is loading, its submit handler returns the state it
    was given: no request is added to those issued, no message is appended,
    the suspended call is untouched, so the call in flight settles exactly
    as it would have without the second submit. *)
Theorem submit_while_loading_is_dropped :
  (forall st : PodFactoryView.State,
      PodFactoryView.isLoading st = true ->
      PodFactoryView.generateProduct st = st
      /\ PodFactoryView.requests (PodFactoryView.generateProduct st)
         = PodFactoryView.requests st
      /\ forall o, PodFactoryView.settle o (PodFactoryView.generateProduct st)
                   = PodFactoryView.settle o st)
  /\ (forall (st : ChatbotView.State) (msgOverride : option jsstring),
        ChatbotView.isLoading st = true ->
        ChatbotView.handleSend msgOverride st = st
        /\ ChatbotView.sent (ChatbotView.handleSend msgOverride st) = ChatbotView.sent st
        /\ forall o, ChatbotView.settle o (ChatbotView.handleSend msgOverride st)
                     = ChatbotView.settle o st).
Proof.
  split.
  - intros st H. rewrite (PodFactoryProps.generateProduct_loading st H).
    repeat split.
  - intros st m H. rewrite (ChatbotProps.handleSend_loading st m H).
    repeat split.
Qed.

Lemma submit_while_loading_is_dropped_witness :
  let pod := PodFactoryView.generateProduct
               (PodFactoryView.setPrompt (js "fox") PodFactoryView.initial) in
  let chat := ChatbotView.handleSend None
                (ChatbotView.setPrompt (js "hello") ChatbotView.initial) in
  (PodFactoryView.isLoading pod = true /\ PodFactoryView.generateProduct pod = pod)
  /\ (ChatbotView.isLoading chat = true
      /\ ChatbotView.handleSend (Some (js "again")) chat = chat).
Proof.
  intros pod chat. destruct submit_while_loading_is_dropped as [Hpod Hchat].
  split; (split; [reflexivity|]).
  - exact (proj1 (Hpod pod eq_refl)).
  - exact (proj1 (Hchat chat (Some (js "again")) eq_refl)).
Defined.

End PanelProps.

(** * Further properties of the code *)

(** ** The vault, beyond the claims *)

Module VaultExtra.
Import Types VaultView VaultCodec VaultProps.

Lemma addKey_fixed (st : State) : addKey (addKey st) = addKey st.
Proof.
  destruct (negb (truthy (newProvider st)) || negb (truthy (newKey st))) eqn:E.
  - assert (addKey st = st) as H by (unfold addKey; rewrite E; reflexivity).
    rewrite H. exact H.
  - pose proof (eq_refl (addKey st)) as H. unfold addKey at 2 in H.
    rewrite E in H. rewrite H. reflexivity.
Qed.

(** X1.  Pressing the add button again changes nothing: however many times
    in a row it is pressed, the vault and the form are as after the first
    press, so a record is added once at most. *)
Theorem repeated_add_adds_once (st : State) (n : nat) :
  run (replicate (S n) ClickAdd) st = run [ClickAdd] st
  /\ (List.length (keys (run (replicate (S n) ClickAdd) st)) <= S (List.length (keys st)))%nat.
Proof.
  assert (forall m s, foldl step (addKey s) (replicate m ClickAdd) = addKey s) as Hrep.
  { induction m as [|m IHm]; intros s; [reflexivity|].
    simpl. rewrite addKey_fixed. apply IHm. }
  assert (run (replicate (S n) ClickAdd) st = addKey st) as H by apply (Hrep n st).
  rewrite H. split; [reflexivity|].
  unfold addKey. destruct (negb (truthy (newProvider st)) || negb (truthy (newKey st))).
  - lia.
  - simpl. rewrite length_app. simpl. lia.
Qed.

Lemma step_other_key (st : State) (ev : Event) (k : string) :
  k <> storage_key -> localStorage (step st ev) !! k = localStorage st !! k.
Proof.
  intros Hk. destruct ev; simpl; try reflexivity.
  - unfold addKey.
    destruct (negb (truthy (newProvider st)) || negb (truthy (newKey st))); [reflexivity|].
    simpl. apply lookup_insert_ne. congruence.
  - apply lookup_insert_ne. congruence.
Qed.

(** X2.  The vault writes one slot of [localStorage] and no other: whatever
    the user does in the panel, the value under any other key is the one it
    was, and mounting the panel writes nothing at all. *)
Theorem vault_writes_only_its_key (evs : list Event) (st : State) (k : string) :
  k <> storage_key ->
  localStorage (run evs st) !! k = localStorage st !! k
  /\ forall st', mount (localStorage st) = Mounted st' -> localStorage st' = localStorage st.
Proof.
  intros Hk. split.
  - revert st. induction evs as [|ev evs IH]; intros st; [reflexivity|].
    change (run (ev :: evs) st) with (run evs (step st ev)).
    rewrite IH. apply step_other_key, Hk.
  - intros st'. unfold mount.
    destruct (localStorage st !! storage_key) as [saved|].
    + destruct (truthy saved).
      * destruct (JSON_parse saved) as [j|e]; [|discriminate].
        destruct (as_keys j); [|discriminate]. intros H. injection H as <-. reflexivity.
      * intros H. injection H as <-. reflexivity.
    + intros H. injection H as <-. reflexivity.
Qed.

Lemma vault_writes_only_its_key_witness :
  let st := initial {[ "theme" := js "dark" ]} in
  localStorage (run [SetNewProvider (js "Stripe"); SetNewKey (js "sk_123"); ClickAdd;
                     ClickDelete 0] st) !! "theme" = Some (js "dark").
Proof.
  intros st.
  pose proof (vault_writes_only_its_key
                [SetNewProvider (js "Stripe"); SetNewKey (js "sk_123"); ClickAdd;
                 ClickDelete 0] st "theme") as H.
  destruct H as [H _]; [discriminate|].
  rewrite H. reflexivity.
Defined.

Lemma delete_last {A} (l : list A) (x : A) : delete (List.length l) (l ++ [x]) = l.
Proof. induction l as [|y l IH]; [reflexivity|]. simpl. f_equal. exact IH. Qed.

(** X3.  Adding a record and then deleting the position it was given (the
    old size of the vault) restores the sequence, and the persisted value
    is that sequence serialised. *)
Theorem add_then_delete_restores (st : State) :
  newProvider st <> [] -> newKey st <> [] ->
  let st' := deleteKey (Z.of_nat (List.length (keys st))) (addKey st) in
  keys (addKey st) =
    keys st ++ [{| provider := newProvider st; key := newKey st;
                   Types.category := category st |}]
  /\ keys st' = keys st
  /\ persisted st' = Some (JSON_stringify (keys st)).
Proof.
  intros Hp Hs st'.
  assert (keys (addKey st) =
          keys st ++ [{| provider := newProvider st; key := newKey st;
                         Types.category := category st |}]) as Hadd.
  { unfold addKey. destruct (newProvider st) as [|p0 p]; [congruence|].
    destruct (newKey st) as [|s0 s]; [congruence|]. reflexivity. }
  assert (keys st' = keys st) as Hk.
  { subst st'. unfold deleteKey. simpl. rewrite Array_filter_delete by lia.
    rewrite Hadd, Nat2Z.id. apply delete_last. }
  split; [exact Hadd|]. split; [exact Hk|].
  subst st'. unfold deleteKey. rewrite persisted_saveKeys. f_equal. f_equal.
  exact Hk.
Qed.

Lemma add_then_delete_restores_witness :
  let st := run [SetNewProvider (js "X"); SetNewKey (js "x_789"); SetCategory social]
              (apply_all [Add stripe; Add gumroad] (initial ∅)) in
  keys (addKey st) = [stripe; gumroad; twitter]
  /\ keys (deleteKey 2 (addKey st)) = [stripe; gumroad].
Proof.
  intros st.
  pose proof (add_then_delete_restores st) as H.
  destruct H as (H1 & H2 & _); [discriminate | discriminate |].
  split; [exact H1 | exact H2].
Defined.

Lemma apply_same_store (s s' : State) (op : Op) :
  keys s = keys s' -> localStorage s = localStorage s' ->
  keys (apply s op) = keys (apply s' op)
  /\ localStorage (apply s op) = localStorage (apply s' op).
Proof.
  intros Hk Hl. destruct op as [r|i].
  - unfold apply, run, events_of. simpl. unfold addKey. simpl.
    destruct (negb (truthy (provider r)) || negb (truthy (key r))); simpl;
      rewrite ?Hk, ?Hl; split; reflexivity.
  - unfold apply, run, events_of. simpl. unfold saveKeys. simpl.
    rewrite Hk, Hl. split; reflexivity.
Qed.

Lemma apply_all_same_store (ops : list Op) :
  forall s s' : State,
    keys s = keys s' -> localStorage s = localStorage s' ->
    keys (apply_all ops s) = keys (apply_all ops s')
    /\ localStorage (apply_all ops s) = localStorage (apply_all ops s').
Proof.
  induction ops as [|op ops IH]; intros s s' Hk Hl; [split; assumption|].
  destruct (apply_same_store s s' op Hk Hl) as [Hk' Hl'].
  apply (IH (apply s op) (apply s' op) Hk' Hl').
Qed.

(** X4.  A reload in the middle of a session loses nothing: operations
    carried out after a remount leave the sequence and [localStorage] that
    the same operations leave without the remount. *)
Theorem remount_continues_session (ls : gmap string jsstring) (ops1 ops2 : list Op) :
  ls !! storage_key = None ->
  exists st',
    reload (apply_all ops1 (initial ls)) = Mounted st'
    /\ keys (apply_all ops2 st') = keys (apply_all (ops1 ++ ops2) (initial ls))
    /\ localStorage (apply_all ops2 st')
       = localStorage (apply_all (ops1 ++ ops2) (initial ls)).
Proof.
  intros Hls. set (st := apply_all ops1 (initial ls)).
  exists (setKeys (keys st) (initial (localStorage st))). split.
  - apply in_sync_reload. subst st. apply in_sync_apply_all.
    left. split; [exact Hls | reflexivity].
  - unfold apply_all at 2 4. rewrite foldl_app. fold (apply_all ops1 (initial ls)).
    fold st. fold (apply_all ops2 st).
    apply apply_all_same_store; reflexivity.
Qed.

Lemma remount_continues_session_witness :
  exists st',
    reload (apply_all [Add stripe; Add gumroad] (initial ∅)) = Mounted st'
    /\ keys (apply_all [Delete 0; Add twitter] st') = [gumroad; twitter].
Proof.
  pose proof (remount_continues_session ∅ [Add stripe; Add gumroad] [Delete 0; Add twitter])
    as H.
  destruct H as (st' & H1 & H2 & _); [reflexivity|].
  exists st'. split; [exact H1|]. rewrite H2. reflexivity.
Defined.

(** X5.  The persisted text determines the vault: two sequences with the
    same serialisation are the same sequence. *)
Theorem JSON_stringify_injective (ks1 ks2 : list ApiKeyStore) :
  JSON_stringify ks1 = JSON_stringify ks2 -> ks1 = ks2.
Proof.
  intros H.
  assert (Some ks1 = Some ks2) as Hs; [|congruence].
  rewrite <- (as_keys_to_json ks1), <- (as_keys_to_json ks2).
  assert (inl (B := parse_error) (JArr (to_json <$> ks1)) = inl (JArr (to_json <$> ks2))) as Hj.
  { rewrite <- !JSON_parse_stringify, H. reflexivity. }
  injection Hj as Hj. rewrite Hj. reflexivity.
Qed.

Lemma JSON_stringify_injective_witness :
  JSON_stringify [stripe] = JSON_stringify [stripe] /\ [stripe] = [stripe].
Proof.
  split; [reflexivity|]. apply (JSON_stringify_injective [stripe] [stripe]). reflexivity.
Defined.

Lemma lookup_map_from {A B} (f : A -> Z -> B) (l : list A) :
  forall (i : Z) (n : nat),
    Render.map_from f i l !! n = (fun x => f x (i + Z.of_nat n)%Z) <$> l !! n.
Proof.
  induction l as [|x l IH]; intros i n; [reflexivity|].
  destruct n as [|n]; simpl.
  - rewrite Z.add_0_r. reflexivity.
  - rewrite IH. replace (i + 1 + Z.of_nat n)%Z with (i + Z.pos (Pos.of_succ_nat n))%Z by lia.
    reflexivity.
Qed.

Lemma length_map_from {A B} (f : A -> Z -> B) (l : list A) :
  forall i : Z, List.length (Render.map_from f i l) = List.length l.
Proof. induction l as [|x l IH]; intros i; simpl; [reflexivity | rewrite IH; reflexivity]. Qed.

(** X6.  Every delete button the vault renders belongs to a record of the
    sequence: the row shows that record's provider and category, its button
    removes exactly that record, and one row fewer is rendered afterwards. *)
Theorem row_button_deletes_its_row (st : State) (row : Render.Row) :
  row ∈ Render.rows st ->
  exists (n : nat) (k : ApiKeyStore),
    Render.row_key row = Z.of_nat n
    /\ keys st !! n = Some k
    /\ Render.provider_text row = provider k
    /\ Render.category_text row = category_name (Types.category k)
    /\ Render.shows_empty_notice st = false
    /\ keys (step st (Render.onClick row)) = delete n (keys st)
    /\ List.length (Render.rows (step st (Render.onClick row)))
       = (List.length (Render.rows st) - 1)%nat.
Proof.
  intros Hrow. apply list_elem_of_lookup in Hrow as [n Hn].
  unfold Render.rows, Render.Array_map in Hn. rewrite lookup_map_from in Hn.
  destruct (keys st !! n) as [k|] eqn:Hk; [|discriminate].
  simpl in Hn. rewrite Z.add_0_l in Hn. injection Hn as <-. exists n, k.
  cbn [Render.onClick Render.row_key Render.provider_text Render.category_text step].
  assert (keys (deleteKey (Z.of_nat n) st) = delete n (keys st)) as Hdel.
  { unfold deleteKey. simpl. rewrite Array_filter_delete by lia.
    rewrite Nat2Z.id. reflexivity. }
  repeat split; try assumption.
  - unfold Render.shows_empty_notice. destruct (keys st); [discriminate | reflexivity].
  - unfold Render.rows, Render.Array_map. rewrite !length_map_from, Hdel.
    rewrite length_delete; [reflexivity|]. rewrite Hk. eauto.
Qed.

Lemma row_button_deletes_its_row_witness :
  let st := apply_all [Add stripe; Add gumroad; Add twitter] (initial ∅) in
  exists row,
    Render.rows st !! 1%nat = Some row
    /\ Render.provider_text row = js "Gumroad"
    /\ keys (step st (Render.onClick row)) = [stripe; twitter].
Proof.
  intros st.
  destruct (Render.rows st !! 1%nat) as [row|] eqn:Hrow; [|discriminate].
  exists row. split; [reflexivity|].
  destruct (row_button_deletes_its_row st row) as (n & k & Hn & Hk & Hp & _ & _ & Hd & _).
  { apply list_elem_of_lookup. exists 1%nat. exact Hrow. }
  vm_compute in Hrow. injection Hrow as <-.
  cbn [Render.row_key] in Hn. assert (n = 1%nat) as -> by lia.
  split; [reflexivity|]. rewrite Hd. reflexivity.
Defined.

End VaultExtra.

(** ** The product-listing panel, beyond the claims *)

Module PodFactoryExtra.
Import GenAI PodFactoryView PodFactoryLog PodFactoryProps.

Lemma log_of_snoc (subs : list (jsstring * bool)) (sub : jsstring * bool) :
  log_of (subs ++ [sub]) = log_of subs ++ submission_requests sub.
Proof.
  unfold log_of. rewrite fmap_app, concat_app. simpl. rewrite app_nil_r. reflexivity.
Qed.

(** What the request log and the suspended call have to do with each
    other on every trace. *)
Lemma log_invariant (evs : list Event) :
  forall st : State,
    (exists subs,
        Forall (fun sub => truthy sub.1 = true) subs
        /\ requests st = log_of subs
        /\ match awaiting st with
           | Nothing => True
           | Strategy p => exists subs', subs = subs' ++ [(p, false)]
           | Image p _ => exists subs', subs = subs' ++ [(p, true)]
           end) ->
    exists subs,
      Forall (fun sub => truthy sub.1 = true) subs
      /\ requests (run evs st) = log_of subs
      /\ match awaiting (run evs st) with
         | Nothing => True
         | Strategy p => exists subs', subs = subs' ++ [(p, false)]
         | Image p _ => exists subs', subs = subs' ++ [(p, true)]
         end.
Proof.
  induction evs as [|ev evs IH]; intros st Hst; [exact Hst|].
  apply IH. clear IH. destruct Hst as (subs & Hne & Hlog & Haw).
  destruct ev as [t| |o]; simpl.
  - exists subs; split; [exact Hne | split; [exact Hlog | exact Haw]].
  - unfold generateProduct.
    destruct (truthy (prompt st)) eqn:Hp; simpl;
      [|exists subs; split; [exact Hne | split; [exact Hlog | exact Haw]]].
    destruct (isLoading st); simpl; [exists subs; split; [exact Hne | split; [exact Hlog | exact Haw]]|].
    exists (subs ++ [(prompt st, false)]). split; [|split].
    + apply Forall_app. split; [exact Hne|]. constructor; [exact Hp | constructor].
    + rewrite log_of_snoc, Hlog. reflexivity.
    + exists subs. reflexivity.
  - unfold settle. destruct (awaiting st) as [|p|p strategy] eqn:Ha.
    + exists subs. split; [exact Hne | split; [exact Hlog|]].
      simpl. rewrite Ha. exact I.
    + destruct (read_strategy o) as [e|strategy]; simpl.
      * exists subs; split; [exact Hne | split; [exact Hlog | exact I]].
      * destruct Haw as [subs' ->].
        apply Forall_app in Hne as [Hne Hp].
        exists (subs' ++ [(p, true)]). split; [|split].
        -- apply Forall_app. split; [exact Hne|].
           apply Forall_cons in Hp as [Hp _]. constructor; [exact Hp | constructor].
        -- rewrite Hlog, !log_of_snoc. unfold submission_requests. simpl.
           rewrite <- app_assoc. reflexivity.
        -- exists subs'. reflexivity.
    + destruct (read_listing strategy o); simpl; exists subs; (split; [exact Hne | split; [exact Hlog | exact I]]).
Qed.

Lemma image_request_inj (p q : jsstring) : image_request p = image_request q -> p = q.
Proof.
  intros H. apply (f_equal contents) in H.
  exact (app_inv_head _ _ _ H).
Qed.

Lemma log_of_cons (sub : jsstring * bool) (subs : list (jsstring * bool)) :
  log_of (sub :: subs) = submission_requests sub ++ log_of subs.
Proof. reflexivity. Qed.

(** In a log an image request stands right after the text request for its
    prompt. *)
Lemma log_of_image_follows (subs : list (jsstring * bool)) :
  forall (i : nat) (p : jsstring),
    log_of subs !! i = Some (image_request p) ->
    exists j : nat, i = S j /\ log_of subs !! j = Some (strategy_request p).
Proof.
  induction subs as [|[q b] subs IH]; intros i p Hi; [discriminate|].
  rewrite log_of_cons in Hi |- *. unfold submission_requests in Hi |- *.
  destruct b; cbn [fst snd app] in Hi |- *.
  - destruct i as [|[|i]]; cbn [lookup list_lookup] in Hi.
    + assert (strategy_request q = image_request p) as E by congruence.
      destruct (strategy_request_is_not_image_request _ _ E).
    + assert (image_request q = image_request p) as E by congruence.
      apply image_request_inj in E as ->.
      exists 0%nat. split; reflexivity.
    + destruct (IH i p Hi) as (j & -> & Hj).
      exists (S (S j)). split; [reflexivity | exact Hj].
  - destruct i as [|i]; cbn [lookup list_lookup] in Hi.
    + assert (strategy_request q = image_request p) as E by congruence.
      destruct (strategy_request_is_not_image_request _ _ E).
    + destruct (IH i p Hi) as (j & -> & Hj).
      exists (S j). split; [reflexivity | exact Hj].
Qed.

(** Every request of a log is the text or the image request of one of its
    submissions. *)
Lemma log_of_prompts (subs : list (jsstring * bool)) (rq : GenerateContentParameters) :
  rq ∈ log_of subs ->
  exists sub, sub ∈ subs /\ (rq = strategy_request sub.1 \/ rq = image_request sub.1).
Proof.
  induction subs as [|sub subs IH]; intros Hrq; [inversion Hrq|].
  rewrite log_of_cons in Hrq. apply elem_of_app in Hrq as [Hrq|Hrq].
  - exists sub. split; [left|].
    unfold submission_requests in Hrq. destruct (sub.2).
    + apply elem_of_cons in Hrq as [->|Hrq]; [left; reflexivity|].
      apply list_elem_of_singleton in Hrq as ->. right; reflexivity.
    + apply list_elem_of_singleton in Hrq as ->. left; reflexivity.
  - destruct (IH Hrq) as (sub' & Hin & H). exists sub'. split; [right; exact Hin | exact H].
Qed.

(** X8.  On every trace of events the requests issued are, in order, those
    of a list of submissions with non-empty prompts: per submission the
    text request, followed or not by the image request for the same prompt.
    The text request goes to the text model, quotes the prompt and asks for
    JSON; the image request goes to the image model and ends in the prompt.
    So every request carries a non-empty prompt, and every image request
    stands right after the text request for its prompt. *)
Theorem requests_are_submissions (evs : list Event) :
  let text_call (p : jsstring) :=
    {| model := js "gemini-3-flash-preview";
       contents :=
         js "Create a high-converting Print-on-Demand product listing for: "
         ++ [QUOTE] ++ p ++ [QUOTE]
         ++ js ". Return a JSON object with keys: "
         ++ [QUOTE] ++ js "title" ++ [QUOTE] ++ js ", "
         ++ [QUOTE] ++ js "description" ++ [QUOTE] ++ js ".";
       config := responseMimeType (js "application/json") |} in
  let image_call (p : jsstring) :=
    {| model := js "gemini-2.5-flash-image";
       contents :=
         js "Vectorized design for a high-end apparel product, white background, high-resolution minimalist aesthetic: "
         ++ p;
       config := imageConfig_aspectRatio (js "1:1") |} in
  let issued := requests (run evs initial) in
  (exists subs : list (jsstring * bool),
      issued = log_of subs
      /\ Forall (fun sub => truthy sub.1 = true) subs
      /\ issued =
         List.concat
           ((fun sub : jsstring * bool => text_call sub.1 :: (if sub.2 then [image_call sub.1] else []))
              <$> subs))
  /\ (forall rq : GenerateContentParameters,
         rq ∈ issued ->
         exists p, truthy p = true /\ (rq = text_call p \/ rq = image_call p))
  /\ (forall (i : nat) (p : jsstring),
         issued !! i = Some (image_call p) ->
         exists j : nat, i = S j /\ issued !! j = Some (text_call p))
  /\ (forall p q : jsstring, text_call p <> image_call q).
Proof.
  intros text_call image_call issued.
  change text_call with strategy_request in *.
  change image_call with image_request in *.
  clearbody text_call image_call.
  destruct (log_invariant evs initial) as (subs & Hne & Hlog & _).
  { exists []. repeat split. constructor. }
  fold issued in Hlog. split; [|split; [|split]].
  - exists subs. split; [exact Hlog|]. split; [exact Hne|].
    rewrite Hlog. unfold log_of. f_equal. apply list_fmap_ext.
    intros _ [q b] _. destruct b; reflexivity.
  - intros rq Hrq. rewrite Hlog in Hrq.
    destruct (log_of_prompts subs rq Hrq) as (sub & Hin & H).
    exists sub.1. split; [|exact H].
    rewrite Forall_forall in Hne. exact (Hne sub Hin).
  - intros i p Hi. rewrite Hlog in Hi |- *. exact (log_of_image_follows subs i p Hi).
  - apply strategy_request_is_not_image_request.
Qed.

(** X9.  Every accepted submission comes to an end: once its calls have
    settled, however they settle, the panel is idle again with the prompt
    untouched, and either it holds a listing and nothing was logged, or it
    holds no listing and exactly one error was logged. *)
Theorem submission_ends_idle (st : State) (o1 o2 : Settled GenerateContentResponse) :
  accepted st ->
  let s := settle o2 (settle o1 (generateProduct st)) in
  isLoading s = false /\ awaiting s = Nothing /\ prompt s = prompt st
  /\ ((exists r, results s = Some r /\ console s = console st)
      \/ (results s = None /\ exists e, console s = console st ++ [e])).
Proof.
  intros Hacc s.
  pose proof (generateProduct_accepted st Hacc) as Hg.
  assert (s = settle o2 (settle o1 (generateProduct st))) as Hs by reflexivity.
  clearbody s.
  rewrite (settle_Strategy (generateProduct st) (prompt st) o1) in Hs
    by (rewrite Hg; reflexivity).
  rewrite Hg in Hs. destruct (read_strategy o1) as [e|strategy].
  - subst s. do 3 (split; [reflexivity|]).
    right. split; [reflexivity|]. exists e. reflexivity.
  - rewrite (settle_Image _ (prompt st) strategy o2) in Hs by reflexivity.
    destruct (read_listing strategy o2) as [e|r]; subst s;
      do 3 (split; [reflexivity|]).
    + right. split; [reflexivity|]. exists e. reflexivity.
    + left. exists r. split; reflexivity.
Qed.

Lemma submission_ends_idle_witness :
  let st := setPrompt (js "fox") initial in
  let s := settle Rejected (settle (Fulfilled strategy_response) (generateProduct st)) in
  isLoading s = false /\ awaiting s = Nothing /\ results s = None
  /\ console s = [ServiceError].
Proof.
  intros st s.
  pose proof (submission_ends_idle st (Fulfilled strategy_response) Rejected) as H.
  destruct H as (H1 & H2 & _ & _); [split; reflexivity|].
  split; [exact H1|]. split; [exact H2|]. split; reflexivity.
Defined.



End PodFactoryExtra.

(** ** The chat panel, beyond the claims *)

Module ChatbotExtra.
Import Types GenAI ChatbotView ChatbotEvents.

Lemma dialogue_snoc_user (ms : list ChatMessage) (t : jsstring) :
  forall b, dialogue b ms = true -> truthy t = true ->
    dialogue b (ms ++ [{| role := user; Types.text := t |}]) = true.
Proof.
  induction ms as [|m ms IH]; intros b Hd Ht.
  - simpl. rewrite Ht. reflexivity.
  - simpl in *. destruct (role m).
    + apply andb_true_iff in Hd as [H1 H2]. rewrite H1. simpl. apply IH; assumption.
    + apply andb_true_iff in Hd as [H1 H2]. rewrite H1. simpl. apply IH; assumption.
Qed.

Lemma dialogue_snoc_model (ms : list ChatMessage) (t reply : jsstring) :
  forall b, dialogue b (ms ++ [{| role := user; Types.text := t |}]) = true ->
    dialogue b ((ms ++ [{| role := user; Types.text := t |}])
                ++ [{| role := Types.model; Types.text := reply |}]) = true.
Proof.
  induction ms as [|m ms IH]; intros b Hd.
  - simpl in *. rewrite andb_true_r in Hd. rewrite Hd. reflexivity.
  - simpl in *. destruct (role m).
    + apply andb_true_iff in Hd as [H1 H2]. rewrite H1. simpl. apply IH; assumption.
    + apply andb_true_iff in Hd as [H1 H2]. rewrite H1. simpl. apply IH; assumption.
Qed.

Lemma user_texts_snoc (ms : list ChatMessage) (m : ChatMessage) :
  user_texts (ms ++ [m]) = user_texts ms ++ (if is_user m then [Types.text m] else []).
Proof.
  unfold user_texts. rewrite filter_app, fmap_app. f_equal.
  rewrite filter_cons, filter_nil. destruct (is_user m); reflexivity.
Qed.

Lemma well_formed_initial : well_formed initial.
Proof. repeat split. discriminate. Qed.

Lemma well_formed_handleSend (msgOverride : option jsstring) (st : State) :
  well_formed st -> well_formed (handleSend msgOverride st).
Proof.
  intros H. unfold handleSend.
  destruct (truthy (or_prompt msgOverride (prompt st))) eqn:Ht; simpl; [|exact H].
  destruct (isLoading st); simpl orb; cbv iota; [exact H|].
  destruct H as (Hd & Hs & Hl & Hu).
  unfold well_formed. cbn [messages sent isLoading awaiting].
  split; [|split; [|split]].
  - apply dialogue_snoc_user; assumption.
  - rewrite user_texts_snoc, Hs. reflexivity.
  - reflexivity.
  - intros _. eexists _, _. reflexivity.
Qed.

Lemma well_formed_settle (o : Settled jsstring) (st : State) :
  well_formed st -> well_formed (settle o st).
Proof.
  intros H. unfold settle.
  destruct (awaiting st) eqn:Ha; [|exact H].
  destruct H as (Hd & Hs & Hl & Hu).
  destruct o as [reply|]; unfold well_formed; cbn [messages sent isLoading awaiting].
  - destruct (Hu Ha) as (ms & t & Hms).
    split; [|split; [|split]].
    + rewrite Hms in *. apply dialogue_snoc_model, Hd.
    + rewrite user_texts_snoc, Hs. simpl. rewrite app_nil_r. reflexivity.
    + reflexivity.
    + discriminate.
  - split; [exact Hd|]. split; [exact Hs|]. split; [reflexivity | discriminate].
Qed.

Lemma well_formed_step (st : State) (ev : Event) : well_formed st -> well_formed (step st ev).
Proof.
  intros H. destruct ev as [s|k| |o]; simpl.
  - exact H.
  - destruct (bool_decide (k = js "Enter")); [apply well_formed_handleSend, H | exact H].
  - apply well_formed_handleSend, H.
  - apply well_formed_settle, H.
Qed.

Lemma well_formed_run (evs : list Event) :
  forall st, well_formed st -> well_formed (run evs st).
Proof.
  induction evs as [|ev evs IH]; intros st H; [exact H|].
  apply IH, well_formed_step, H.
Qed.

Lemma well_formed_mount (seed : option jsstring) : well_formed (mount seed).
Proof.
  unfold mount. destruct seed as [p|]; [|apply well_formed_initial].
  destruct (truthy p); [|apply well_formed_initial].
  apply well_formed_handleSend, well_formed_initial.
Qed.

(** X11.  Whatever the seed and whatever happens in the panel, the
    messages form a dialogue: no user message is empty, and a model message
    comes only directly after a user message, so that a reply is never
    shown without the message it answers and never twice.  The texts sent
    to the chat session are exactly the texts of the user messages, in
    order. *)
Theorem chat_is_a_dialogue (seed : option jsstring) (evs : list Event) :
  let st := run evs (mount seed) in
  dialogue false (messages st) = true
  /\ sent st = user_texts (messages st).
Proof.
  intros st. destruct (well_formed_run evs (mount seed) (well_formed_mount seed))
    as (Hd & Hs & _).
  split; assumption.
Qed.

Lemma step_appends (st : State) (ev : Event) :
  messages st `prefix_of` messages (step st ev) /\ sent st `prefix_of` sent (step st ev).
Proof.
  assert (forall m s, messages s `prefix_of` messages (handleSend m s)
                      /\ sent s `prefix_of` sent (handleSend m s)) as Hsend.
  { intros m s. unfold handleSend.
    destruct (negb (truthy (or_prompt m (prompt s))) || isLoading s); simpl.
    - split; reflexivity.
    - split; apply prefix_app_r; reflexivity. }
  destruct ev as [s|k| |o]; simpl.
  - split; reflexivity.
  - destruct (bool_decide (k = js "Enter")); [apply Hsend | split; reflexivity].
  - apply Hsend.
  - unfold settle. destruct (awaiting st); [|split; reflexivity].
    destruct o; simpl; split; try reflexivity. apply prefix_app_r. reflexivity.
Qed.

(** X12.  The conversation is append-only: from any state of the panel, no
    event removes or rewrites a message already shown, nor a text already
    sent; and an event adds one message at most. *)
Theorem messages_are_append_only (evs : list Event) (st : State) :
  messages st `prefix_of` messages (run evs st)
  /\ sent st `prefix_of` sent (run evs st)
  /\ (List.length (messages (run evs st)) <= List.length (messages st) + List.length evs)%nat.
Proof.
  revert st. induction evs as [|ev evs IH]; intros st.
  - split; [reflexivity|]. split; [reflexivity|]. simpl. lia.
  - destruct (IH (step st ev)) as (H1 & H2 & H3).
    destruct (step_appends st ev) as [H4 H5].
    change (run (ev :: evs) st) with (run evs (step st ev)).
    split; [etransitivity; eassumption|]. split; [etransitivity; eassumption|].
    assert (List.length (messages (step st ev)) <= S (List.length (messages st)))%nat as Hone.
    { destruct ev as [s|k| |o]; simpl.
      - lia.
      - destruct (bool_decide (k = js "Enter")); [|lia].
        unfold handleSend.
        destruct (negb (truthy (or_prompt None (prompt st))) || isLoading st); simpl;
          [lia | rewrite length_app; simpl; lia].
      - unfold handleSend.
        destruct (negb (truthy (or_prompt None (prompt st))) || isLoading st); simpl;
          [lia | rewrite length_app; simpl; lia].
      - unfold settle. destruct (awaiting st); [|lia].
        destruct o; simpl; [rewrite length_app; simpl; lia | lia]. }
    simpl List.length. lia.
Qed.

(** X13.  Single flight in the chat: on every trace the panel is loading
    exactly while a call is awaited, the message last shown is then the
    user's, and any settlement of the call ends the loading without
    touching the input box. *)
Theorem chat_single_flight (seed : option jsstring) (evs : list Event) :
  let st := run evs (mount seed) in
  isLoading st = awaiting st
  /\ (isLoading st = true ->
      exists ms t, messages st = ms ++ [{| role := user; Types.text := t |}])
  /\ forall o, isLoading (settle o st) = false /\ awaiting (settle o st) = false
               /\ prompt (settle o st) = prompt st.
Proof.
  intros st. destruct (well_formed_run evs (mount seed) (well_formed_mount seed))
    as (_ & _ & Hl & Hu).
  fold st in Hl, Hu. split; [exact Hl|]. split; [rewrite Hl; exact Hu|].
  intros o. unfold settle. destruct (awaiting st) eqn:Ha.
  - destruct o; simpl; repeat split.
  - rewrite Ha. repeat split. congruence.
Qed.

End ChatbotExtra.

(** ** The shell and the icons, beyond the claims *)

Module ShellExtra.
Import Types Features Render.

Lemma listed_run (acts : list App.Action) :
  forall st : App.State,
    bool_decide (App.activeFeature st ∈ id <$> FEATURES) = true ->
    forallb offered acts = true ->
    bool_decide (App.activeFeature (App.run acts st) ∈ id <$> FEATURES) = true.
Proof.
  induction acts as [|a acts IH]; intros st Hst Hacts; [exact Hst|].
  simpl in Hacts. apply andb_true_iff in Hacts as [Ha Hacts].
  apply IH; [|exact Hacts]. destruct a as [|f|]; simpl.
  - destruct (App.CurrentView st); try exact Hst. reflexivity.
  - exact Ha.
  - exact Hst.
Qed.

Lemma find_listed (a : FeatureId) :
  bool_decide (a ∈ id <$> FEATURES) = true ->
  exists f, find_feature a = Some f /\ id f = a /\ f ∈ FEATURES
            /\ forall g, g ∈ FEATURES -> id g = a -> g = f.
Proof.
  intros H. destruct a; try (vm_compute in H; discriminate H);
    (eexists; split; [reflexivity|]; split; [reflexivity|]; split;
     [apply list_elem_of_In; simpl; tauto|];
     intros g Hg Hid; apply list_elem_of_In in Hg; simpl in Hg;
     repeat (destruct Hg as [<-|Hg]; [try reflexivity; discriminate Hid|]);
     destruct Hg).
Qed.

(** X14.  With the sidebar as the only way to select a feature, the active
    feature is always one of [FEATURES]: the lookup of line 377 never gives
    [undefined], the feature it gives has the active identifier, and no
    other entry of [FEATURES] has it. *)
Theorem active_feature_is_listed (acts : list App.Action) :
  forallb offered acts = true ->
  exists f : Feature,
    find_feature (App.activeFeature (App.run acts App.initial)) = Some f
    /\ id f = App.activeFeature (App.run acts App.initial)
    /\ f ∈ FEATURES
    /\ forall g, g ∈ FEATURES -> id g = id f -> g = f.
Proof.
  intros Hacts.
  destruct (find_listed (App.activeFeature (App.run acts App.initial)))
    as (f & H1 & H2 & H3 & H4).
  - apply listed_run; [reflexivity | exact Hacts].
  - exists f. rewrite H2. repeat split; assumption.
Qed.

Lemma active_feature_is_listed_witness :
  exists f : Feature,
    find_feature (App.activeFeature
                    (App.run [App.Select vault; App.ToggleMenu; App.Select dashboard;
                              App.PressRobinHood] App.initial)) = Some f
    /\ id f = chatbot.
Proof.
  destruct (active_feature_is_listed
              [App.Select vault; App.ToggleMenu; App.Select dashboard; App.PressRobinHood])
    as (f & H1 & H2 & _); [reflexivity|].
  exists f. split; [exact H1 | exact H2].
Defined.

Lemma seed_run (acts : list App.Action) :
  forall st : App.State,
    (forall p, App.chatbotInitialPrompt st = Some p ->
               App.activeFeature st = chatbot /\ p = App.robin_hood_prompt) ->
    forall p, App.chatbotInitialPrompt (App.run acts st) = Some p ->
              App.activeFeature (App.run acts st) = chatbot /\ p = App.robin_hood_prompt.
Proof.
  induction acts as [|a acts IH]; intros st Hst; [exact Hst|].
  apply IH. destruct a as [|f|]; simpl.
  - destruct (App.CurrentView st); try exact Hst.
    simpl. intros p Hp. injection Hp as <-. split; reflexivity.
  - simpl. intros p Hp. discriminate Hp.
  - exact Hst.
Qed.

(** X15.  The shell holds a seed only while the chat panel is the active
    one, and the seed is then the ROBIN HOOD prompt: a seed is never kept
    for a later visit, and a panel opened from the sidebar, the chat panel
    included, is rendered without one. *)
Theorem seed_only_with_chat (acts : list App.Action) (p : jsstring) :
  App.chatbotInitialPrompt (App.run acts App.initial) = Some p ->
  App.activeFeature (App.run acts App.initial) = chatbot
  /\ p = App.robin_hood_prompt
  /\ App.CurrentView (App.run acts App.initial) = App.Chatbot (Some App.robin_hood_prompt)
  /\ forall f, App.CurrentView (App.run (acts ++ [App.Select f]) App.initial)
               <> App.Chatbot (Some p).
Proof.
  intros Hp.
  destruct (seed_run acts App.initial) with (p := p) as [Ha ->];
    [intros q Hq; discriminate Hq | exact Hp |].
  split; [exact Ha|]. split; [reflexivity|]. split.
  - unfold App.CurrentView. rewrite Ha, Hp. reflexivity.
  - intros f. unfold App.run. rewrite foldl_app. simpl.
    unfold App.CurrentView. simpl. destruct f; discriminate.
Qed.

Lemma seed_only_with_chat_witness :
  App.activeFeature
    (App.run [App.Select vault; App.Select dashboard; App.PressRobinHood; App.ToggleMenu]
       App.initial) = chatbot.
Proof.
  exact (proj1 (seed_only_with_chat
                  [App.Select vault; App.Select dashboard; App.PressRobinHood;
                   App.ToggleMenu] App.robin_hood_prompt eq_refl)).
Defined.

Lemma is_svg_Icon (n : string) (cls cls' : option string) :
  Icons.is_svg (Icons.Icon n cls) = Icons.is_svg (Icons.Icon n cls').
Proof.
  unfold Icons.Icon. destruct (Icons.icons !! n); [reflexivity|].
  destruct (bool_decide (n ∈ Icons.Object_prototype)); reflexivity.
Qed.

Lemma feature_icons_exist (cls : option string) :
  Forall (fun f => Icons.is_svg (Icons.Icon (icon f) cls) = true) FEATURES.
Proof.
  apply Forall_forall. intros f Hf. rewrite (is_svg_Icon _ cls None).
  revert f Hf. apply Forall_forall. vm_compute. repeat constructor.
Qed.

Lemma literal_icons_exist (cls : option string) :
  Forall (fun n => Icons.is_svg (Icons.Icon n cls) = true)
    ["money"; "podFactory"; "socialStrategist"; "vault"; "plus"; "trash"; "chatbot"; "stop"].
Proof.
  apply Forall_forall. intros n Hn. rewrite (is_svg_Icon _ cls None).
  revert n Hn. apply Forall_forall. vm_compute. repeat constructor.
Qed.

Lemma Forall_map_from {A B} (P : B -> Prop) (f : A -> Z -> B) (l : list A) :
  (forall x i, P (f x i)) -> forall i, Forall P (map_from f i l).
Proof.
  intros H. induction l as [|x l IH]; intros i; simpl; constructor; [apply H | apply IH].
Qed.

Ltac lit :=
  match goal with
  | Hlit : forall n, n ∈ _ -> Icons.is_svg (Icons.Icon n _) = true |- _ =>
      apply Hlit; apply list_elem_of_In; simpl;
      repeat (first [left; reflexivity | right])
  end.

(** X16.  The page never asks for an icon the registry lacks: in every
    state the shell reaches through its sidebar and the ROBIN HOOD button,
    and for all states of the panels, every name the rendered page passes
    to [Icon] gives an [svg] element, whatever the class name. *)
Theorem rendered_icons_exist (acts : list App.Action) (vaultSt : VaultView.State)
    (pod : PodFactoryView.State) (chat : ChatbotView.State) (cls : option string) :
  forallb offered acts = true ->
  exists names,
    App_icons (App.run acts App.initial) vaultSt pod chat = Some names
    /\ Forall (fun n => Icons.is_svg (Icons.Icon n cls) = true) names.
Proof.
  intros Hacts.
  destruct (find_listed (App.activeFeature (App.run acts App.initial)))
    as (f & Hfind & _ & Hin & _); [apply listed_run; [reflexivity | exact Hacts]|].
  pose proof (feature_icons_exist cls) as HF.
  pose proof (literal_icons_exist cls) as HL.
  assert (Icons.is_svg (Icons.Icon (icon f) cls) = true) as Hf
    by (rewrite Forall_forall in HF; apply HF, Hin).
  assert (forall n, n ∈ ["money"; "podFactory"; "socialStrategist"; "vault"; "plus";
                         "trash"; "chatbot"; "stop"] ->
                    Icons.is_svg (Icons.Icon n cls) = true) as Hlit
    by (rewrite Forall_forall in HL; exact HL).
  assert (Forall (fun n => Icons.is_svg (Icons.Icon n cls) = true)
            ("money" :: (icon <$> FEATURES))) as Hside.
  { constructor; [lit|]. apply Forall_fmap. exact HF. }
  unfold App_icons. rewrite Hfind.
  destruct (App.CurrentView (App.run acts App.initial)).
  - exists (("money" :: (icon <$> FEATURES)) ++ DashboardView_icons f).
    split; [reflexivity|]. apply Forall_app. split; [exact Hside|].
    unfold DashboardView_icons, ViewContainer_icons.
    apply Forall_app. split; [constructor; [exact Hf | constructor]|].
    repeat constructor; try lit.
  - exists (("money" :: (icon <$> FEATURES)) ++ VaultView_icons f vaultSt).
    split; [reflexivity|]. apply Forall_app. split; [exact Hside|].
    unfold VaultView_icons, ViewContainer_icons.
    apply Forall_app. split; [constructor; [exact Hf | constructor]|].
    apply Forall_app. split; [constructor; [lit | constructor]|].
    apply Forall_concat, Forall_fmap. unfold rows, Array_map.
    apply Forall_map_from. intros k i. unfold compose. cbn [row_icon].
    destruct (is_payment k); repeat constructor; try lit.
  - exists (("money" :: (icon <$> FEATURES)) ++ PodFactoryView_icons f pod).
    split; [reflexivity|]. apply Forall_app. split; [exact Hside|].
    unfold PodFactoryView_icons, ViewContainer_icons.
    apply Forall_app. split; [constructor; [exact Hf | constructor]|].
    destruct (PodFactoryView.render pod); repeat constructor; try lit.
  - exists (("money" :: (icon <$> FEATURES)) ++ ChatbotView_icons f chat).
    split; [reflexivity|]. apply Forall_app. split; [exact Hside|].
    unfold ChatbotView_icons, ViewContainer_icons.
    apply Forall_app. split; [constructor; [exact Hf | constructor]|].
    apply Forall_app. split; [|constructor; [lit | constructor]].
    destruct (ChatbotView.messages chat); repeat constructor; try lit.
  - exists (("money" :: (icon <$> FEATURES)) ++ ["stop"]).
    split; [reflexivity|]. apply Forall_app. split; [exact Hside|].
    constructor; [lit | constructor].
Qed.

Lemma rendered_icons_exist_witness :
  exists names,
    App_icons (App.run [App.Select vault] App.initial)
      (VaultView.apply_all [VaultView.Add VaultView.stripe; VaultView.Add VaultView.gumroad]
         (VaultView.initial ∅))
      PodFactoryView.initial ChatbotView.initial = Some names
    /\ Forall (fun n => Icons.is_svg (Icons.Icon n None) = true) names.
Proof.
  apply (rendered_icons_exist [App.Select vault]). reflexivity.
Defined.

End ShellExtra.
